(** * go-middleware: a shallow embedding of the pipeline engine

    The development follows the Go sources file by file:
    - [metadata.go]: the request-scoped metadata helpers over [context.Context];
    - [chain.go]: the [Chain] type, its constructors and [Then];
    - [bultin.go]: the built-in middlewares ([RequestID], [Recovery],
      [RateLimit]) and [generateRequestID].

    Go values of interface type ([any], [error], [context.Context]) are
    modelled by inductive types whose constructors record the dynamic type;
    heap objects ([*Chain], backing arrays of slices, the rate limiter's
    bucket) live in explicit stores; panics are an explicit outcome. *)

From Stdlib Require Import ZArith.
From Stdlib.Strings Require Import Byte.
From stdpp Require Import base tactics option list gmap strings pretty.

Local Open Scope Z_scope.

(* ===================================================================== *)
(** ** Go values                                                          *)
(* ===================================================================== *)

(** A non-nil value of type [error].  [ErrorString] is what [errors.New] and
    [fmt.Errorf] without a wrapping verb build; [WrapError] is what
    [fmt.Errorf] with one [%w] operand builds: the formatted message and the
    wrapped error. *)
Inductive GoError :=
  | ErrorString (s : string)
  | WrapError (msg : string) (err : GoError).

#[global] Instance GoError_eq_dec : EqDecision GoError.
Proof. solve_decision. Defined.

(** [err.Error()] *)
Definition err_Error (e : GoError) : string :=
  match e with ErrorString s => s | WrapError msg _ => msg end.

(** [errors.Unwrap(err)] *)
Definition errors_Unwrap (e : GoError) : option GoError :=
  match e with ErrorString _ => None | WrapError _ err => Some err end.

(** A value of static type [any].  The constructor is the dynamic type;
    [VNil] is the nil interface value. *)
Inductive Value :=
  | VNil
  | VString (s : string)
  | VBool (b : bool)
  | VInt (n : Z)
  | VError (e : GoError)
  | VOther (tag : nat).

#[global] Instance Value_eq_dec : EqDecision Value.
Proof. solve_decision. Defined.

(** [value != nil] *)
Definition not_nil (v : Value) : bool :=
  match v with VNil => false | _ => true end.

(** The comma-ok type assertion [v.(string)]. *)
Definition assert_string (v : Value) : string * bool :=
  match v with VString s => (s, true) | _ => (EmptyString, false) end.

(** The comma-ok type assertion [v.(bool)]. *)
Definition assert_bool (v : Value) : bool * bool :=
  match v with VBool b => (b, true) | _ => (false, false) end.

(** Context keys.  A key is an interface value, and two interface values are
    equal only when their dynamic types agree: a [string] key and a
    [metadataKey] key with the same text are different keys.  The package
    has four key types of its own next to plain [string]. *)
Inductive Key :=
  | KString (s : string)          (* string *)
  | KMetadata (s : string)        (* type metadataKey string *)
  | KObservability (s : string)   (* type observabilityKey string *)
  | KChainName                    (* type chainNameKey struct{} *)
  | KMiddlewareIndex.             (* type middlewareIndexKey struct{} *)

#[global] Instance Key_eq_dec : EqDecision Key.
Proof. solve_decision. Defined.

(** chain.go: [ChainNameKey], [MiddlewareIndexKey] *)
Definition ChainNameKey : Key := KChainName.
Definition MiddlewareIndexKey : Key := KMiddlewareIndex.

(** metadata.go: the [metadataKey] constants *)
Definition userKey : Key := KMetadata "user".
Definition sessionKey : Key := KMetadata "session".
Definition requestKey : Key := KMetadata "request_id".

(* ===================================================================== *)
(** ** context.Context                                                    *)
(* ===================================================================== *)

(** A non-nil context: the background context extended by [WithValue] and
    deadline nodes.  A variable of Go type [context.Context] that may also be
    nil is an [option Context]. *)
Inductive Context :=
  | Background
  | WithValue (parent : Context) (key : Key) (val : Value)
  | WithDeadline (parent : Context) (deadline : Z).

(** [ctx.Value(key)]: the nearest enclosing [WithValue] node with an equal
    key decides; deadline nodes delegate to their parent; the background
    context answers nil. *)
Fixpoint ctx_Value (ctx : Context) (key : Key) : Value :=
  match ctx with
  | Background => VNil
  | WithValue parent k v => if decide (k = key) then v else ctx_Value parent key
  | WithDeadline parent _ => ctx_Value parent key
  end.

(** The key occurs in some [WithValue] node of the chain. *)
Fixpoint set_on (ctx : Context) (key : Key) : Prop :=
  match ctx with
  | Background => False
  | WithValue parent k _ => k = key \/ set_on parent key
  | WithDeadline parent _ => set_on parent key
  end.

(** The value of the nearest node that sets the key, if there is one. *)
Fixpoint latest (ctx : Context) (key : Key) : option Value :=
  match ctx with
  | Background => None
  | WithValue parent k v => if decide (k = key) then Some v else latest parent key
  | WithDeadline parent _ => latest parent key
  end.

(* ===================================================================== *)
(** ** metadata.go                                                        *)
(* ===================================================================== *)

Definition AddMetadata (ctx : Context) (key : string) (value : Value) : Context :=
  WithValue ctx (KString key) value.

Definition GetMetadata (ctx : Context) (key : string) : Value * bool :=
  let value := ctx_Value ctx (KString key) in
  (value, not_nil value).

Definition GetMetadataString (ctx : Context) (key : string) : string * bool :=
  let value := ctx_Value ctx (KString key) in
  assert_string value.

Definition GetMetadataBool (ctx : Context) (key : string) : bool * bool :=
  let value := ctx_Value ctx (KString key) in
  assert_bool value.

Definition SetUserID (ctx : Context) (userID : string) : Context :=
  WithValue ctx userKey (VString userID).

Definition GetUserID (ctx : Context) : string * bool :=
  assert_string (ctx_Value ctx userKey).

Definition SetRequestID (ctx : Context) (requestID : string) : Context :=
  WithValue ctx requestKey (VString requestID).

Definition GetRequestID (ctx : Context) : string * bool :=
  assert_string (ctx_Value ctx requestKey).

(** chain.go: [GetChainName] *)
Definition GetChainName (ctx : Context) : string * bool :=
  assert_string (ctx_Value ctx ChainNameKey).

(* ===================================================================== *)
(** ** The world the middlewares act on                                   *)
(* ===================================================================== *)

(** bultin.go: [tokenBucket].  [tokens] and [capacity] are Go [int]s,
    [refillRate] a [time.Duration] and [lastRefill] a clock reading, both in
    nanoseconds. *)
Record tokenBucket := {
  tokens : Z;
  capacity : Z;
  refillRate : Z;
  lastRefill : Z
}.

(** One record handed to a [*slog.Logger]. *)
Record LogRecord := {
  log_logger : nat;
  log_level : Z;
  log_msg : string;
  log_attrs : list (string * Value)
}.

(** Everything a middleware can observe or change besides its arguments:
    the clock read by [time.Now], the stream read by [crypto/rand], the
    buckets owned by rate limiter closures, the log sink, the text
    [debug.Stack] returns, and integer cells for state that caller-written
    middlewares close over (a call counter in a test, say). *)
Record World := {
  clock : Z;
  entropy : nat -> byte;
  entropy_pos : nat;
  buckets : gmap nat tokenBucket;
  logs : list LogRecord;
  stack_text : string;
  cells : gmap string Z
}.

Definition set_clock (t : Z) (w : World) : World :=
  {| clock := t; entropy := entropy w; entropy_pos := entropy_pos w;
     buckets := buckets w; logs := logs w; stack_text := stack_text w;
     cells := cells w |}.

Definition set_entropy_pos (n : nat) (w : World) : World :=
  {| clock := clock w; entropy := entropy w; entropy_pos := n;
     buckets := buckets w; logs := logs w; stack_text := stack_text w;
     cells := cells w |}.

Definition set_buckets (bs : gmap nat tokenBucket) (w : World) : World :=
  {| clock := clock w; entropy := entropy w; entropy_pos := entropy_pos w;
     buckets := bs; logs := logs w; stack_text := stack_text w;
     cells := cells w |}.

Definition set_logs (l : list LogRecord) (w : World) : World :=
  {| clock := clock w; entropy := entropy w; entropy_pos := entropy_pos w;
     buckets := buckets w; logs := l; stack_text := stack_text w;
     cells := cells w |}.

Definition set_cells (cs : gmap string Z) (w : World) : World :=
  {| clock := clock w; entropy := entropy w; entropy_pos := entropy_pos w;
     buckets := buckets w; logs := logs w; stack_text := stack_text w;
     cells := cs |}.

(** How a call of a middleware, or of [Then], ends: it returns its three
    results (the context may be the nil interface), or it panics with a
    value. *)
Inductive Outcome :=
  | Return (ctx : option Context) (output : Value) (err : option GoError)
  | Panic (v : Value).

(** chain.go: [MiddlewareFunc].  [Stage] is a non-nil function value; a
    [MiddlewareFunc] may be the nil function, as the elements of a slice
    fresh from [make] are. *)
Definition Stage : Type := Context -> Value -> World -> Outcome * World.
Definition MiddlewareFunc : Type := option Stage.

(** The panic values of the run time and of package [context] that the
    engine can meet. *)
Definition nil_dereference : Value :=
  VError (ErrorString "runtime error: invalid memory address or nil pointer dereference").
Definition nil_parent : Value :=
  VString "cannot create context from nil parent".
Definition slice_out_of_range : Value :=
  VError (ErrorString "runtime error: slice bounds out of range").

(* ===================================================================== *)
(** ** The store of chains and of the arrays behind their slices          *)
(* ===================================================================== *)

(** A slice header: the backing array, the offset of element 0 in it, the
    length and the capacity. *)
Record slice := {
  base : nat;
  off : nat;
  len : nat;
  cap : nat
}.

(** chain.go: [Chain] *)
Record Chain := {
  middlewares : slice;
  name : string
}.

(** Backing arrays and [Chain] structs, by address. *)
Record Store := {
  arrays : gmap nat (list MiddlewareFunc);
  chains : gmap nat Chain
}.

(** Store-passing computations.  [None] is a run-time panic of the
    operation itself: a receiver that is not a live [*Chain], or a slice
    expression out of range. *)
Definition M (A : Type) : Type := Store -> option (A * Store).

Definition ret {A : Type} (a : A) : M A := fun st => Some (a, st).

Definition bind {A B : Type} (m : M A) (k : A -> M B) : M B :=
  fun st => match m st with
            | Some (a, st') => k a st'
            | None => None
            end.

Notation "x <- m ;; k" := (bind m (fun x => k))
  (at level 100, m at next level, right associativity).

(** [make([]MiddlewareFunc, n)]: a new array of [n] nil functions. *)
Definition make (n : nat) : M slice := fun st =>
  let a := fresh (dom (arrays st)) in
  Some ({| base := a; off := 0; len := n; cap := n |},
        {| arrays := <[a := replicate n None]> (arrays st);
           chains := chains st |}).

(** The elements a slice shows, in order. *)
Definition elems (s : slice) : M (list MiddlewareFunc) := fun st =>
  match arrays st !! base s with
  | Some arr =>
      if decide (len s <= cap s /\ off s + cap s <= length arr)%nat
      then Some (take (len s) (drop (off s) arr), st)
      else None
  | None => None
  end.

(** [copy(dst, src)]: overwrites the first [min(len(dst), len(src))]
    elements of [dst] in its backing array and returns their number.  The
    source is given by the elements it held when the call started. *)
Definition copy (dst : slice) (src : list MiddlewareFunc) : M nat := fun st =>
  match arrays st !! base dst with
  | Some arr =>
      if decide (len dst <= cap dst /\ off dst + cap dst <= length arr)%nat
      then
        let n := Nat.min (len dst) (length src) in
        let arr' := take (off dst) arr ++ take n src
                      ++ drop (off dst + n) arr in
        Some (n, {| arrays := <[base dst := arr']> (arrays st);
                    chains := chains st |})
      else None
  | None => None
  end.

(** The slice expression [s[k:]]. *)
Definition slice_from (s : slice) (k : nat) : M slice := fun st =>
  if decide (k <= len s)%nat
  then Some ({| base := base s; off := off s + k;
                len := len s - k; cap := cap s - k |}, st)
  else None.

(** [append(s, src...)]: in place when the capacity suffices, otherwise into
    a new array that receives the old elements first.  The new array is
    given exactly the capacity needed; Go may round it up, which no
    operation of this package can observe. *)
Definition go_append (s : slice) (src : list MiddlewareFunc) : M slice :=
  if decide (len s + length src <= cap s)%nat
  then
    _ <- copy {| base := base s; off := off s + len s;
                 len := length src; cap := cap s - len s |} src ;;
    ret {| base := base s; off := off s;
           len := len s + length src; cap := cap s |}
  else
    old <- elems s ;;
    s' <- make (len s + length src) ;;
    _ <- copy s' (old ++ src) ;;
    ret s'.

(** [&Chain{...}] *)
Definition alloc_chain (c : Chain) : M nat := fun st =>
  let p := fresh (dom (chains st)) in
  Some (p, {| arrays := arrays st; chains := <[p := c]> (chains st) |}).

(** Dereferencing a [*Chain]. *)
Definition load (p : nat) : M Chain := fun st =>
  match chains st !! p with
  | Some c => Some (c, st)
  | None => None
  end.

(* ===================================================================== *)
(** ** chain.go                                                           *)
(* ===================================================================== *)

(** Variadic parameters are read, never written, by the functions below;
    they are given by the list of their elements. *)

Definition NewChain (mws : list MiddlewareFunc) : M nat :=
  s0 <- make 0 ;;
  s <- go_append s0 mws ;;
  alloc_chain {| middlewares := s; name := "" |}.

Definition NewNamedChain (nm : string) (mws : list MiddlewareFunc) : M nat :=
  s0 <- make 0 ;;
  s <- go_append s0 mws ;;
  alloc_chain {| middlewares := s; name := nm |}.

Definition Append (p : nat) (mws : list MiddlewareFunc) : M nat :=
  c <- load p ;;
  newMiddlewares <- make (len (middlewares c) + length mws) ;;
  own <- elems (middlewares c) ;;
  _ <- copy newMiddlewares own ;;
  rest <- slice_from newMiddlewares (len (middlewares c)) ;;
  _ <- copy rest mws ;;
  alloc_chain {| middlewares := newMiddlewares; name := name c |}.

Definition Prepend (p : nat) (mws : list MiddlewareFunc) : M nat :=
  c <- load p ;;
  newMiddlewares <- make (length mws + len (middlewares c)) ;;
  _ <- copy newMiddlewares mws ;;
  rest <- slice_from newMiddlewares (length mws) ;;
  own <- elems (middlewares c) ;;
  _ <- copy rest own ;;
  alloc_chain {| middlewares := newMiddlewares; name := name c |}.

Definition Clone (p : nat) : M nat :=
  c <- load p ;;
  mws <- make (len (middlewares c)) ;;
  own <- elems (middlewares c) ;;
  _ <- copy mws own ;;
  alloc_chain {| middlewares := mws; name := name c |}.

Definition Len (p : nat) : M Z :=
  c <- load p ;;
  ret (Z.of_nat (len (middlewares c))).

Definition Name (p : nat) : M string :=
  c <- load p ;;
  ret (name c).

(** [fmt.Errorf("middleware %d failed: %w", i, err)] *)
Definition Errorf_middleware_failed (i : Z) (err : GoError) : GoError :=
  WrapError ("middleware " +:+ pretty i +:+ " failed: " +:+ err_Error err) err.

(** The [for i, mw := range c.middlewares] loop of [Then], from index [i]
    on.  [context.WithValue] panics on a nil parent, and calling a nil
    function value panics. *)
Fixpoint Then_loop (mws : list MiddlewareFunc) (i : nat)
    (currentCtx : option Context) (output : Value) (w : World)
    : Outcome * World :=
  match mws with
  | [] => (Return currentCtx output None, w)
  | mw :: rest =>
      match currentCtx with
      | None => (Panic nil_parent, w)
      | Some c =>
          let c1 := WithValue c MiddlewareIndexKey (VInt (Z.of_nat i)) in
          match mw with
          | None => (Panic nil_dereference, w)
          | Some f =>
              match f c1 output w with
              | (Return c2 out2 (Some err), w') =>
                  (Return c2 VNil
                     (Some (Errorf_middleware_failed (Z.of_nat i) err)), w')
              | (Return c2 out2 None, w') => Then_loop rest (S i) c2 out2 w'
              | (Panic v, w') => (Panic v, w')
              end
          end
      end
  end.

(** [Then] past its length test: the name goes on the context, then the
    loop runs. *)
Definition Then_run (nm : string) (mws : list MiddlewareFunc)
    (ctx : option Context) (input : Value) (w : World) : Outcome * World :=
  if decide (nm <> EmptyString)
  then match ctx with
       | None => (Panic nil_parent, w)
       | Some c =>
           Then_loop mws 0 (Some (WithValue c ChainNameKey (VString nm)))
             input w
       end
  else Then_loop mws 0 ctx input w.

Definition Then (p : nat) (ctx : option Context) (input : Value) (w : World)
    : M (Outcome * World) :=
  c <- load p ;;
  if decide (len (middlewares c) = 0)%nat
  then ret (Return ctx input None, w)
  else
    mws <- elems (middlewares c) ;;
    ret (Then_run (name c) mws ctx input w).

(* ===================================================================== *)
(** ** bultin.go                                                          *)
(* ===================================================================== *)

(** A [func() string] value: it returns a string (left) or panics (right),
    and may act on the world. *)
Definition Generator : Type := World -> (string + Value) * World.

Definition RequestIDWithGenerator (generator : Generator) : Stage :=
  fun ctx input w =>
    if negb (snd (GetRequestID ctx))
    then (Return (Some ctx) input None, w)
    else
      match generator w with
      | (inl requestID, w') =>
          (Return (Some (SetRequestID ctx requestID)) input None, w')
      | (inr v, w') => (Panic v, w')
      end.

(** [rand.Read(bytes)] on a slice of [n] bytes: the next [n] bytes of the
    random stream. *)
Definition rand_Read (n : nat) (w : World) : list byte * World :=
  (map (fun i => entropy w (entropy_pos w + i)%nat) (seq 0 n),
   set_entropy_pos (entropy_pos w + n)%nat w).

(** encoding/hex: [hextable] and [EncodeToString].  The indices
    [v >> 4] and [v & 0x0f] are below 16, so the lookup is always in
    range. *)
Definition hextable : string := "0123456789abcdef".

Definition hextable_at (i : Z) : Ascii.ascii :=
  match String.get (Z.to_nat i) hextable with
  | Some c => c
  | None => Ascii.zero
  end.

Definition byte_value (b : byte) : Z := Z.of_N (Byte.to_N b).

Fixpoint hex_EncodeToString (src : list byte) : string :=
  match src with
  | [] => EmptyString
  | v :: rest =>
      String (hextable_at (Z.shiftr (byte_value v) 4))
        (String (hextable_at (Z.land (byte_value v) 15))
           (hex_EncodeToString rest))
  end.

Definition generateRequestID : Generator := fun w =>
  let '(bytes, w') := rand_Read 8 w in
  (inl (hex_EncodeToString bytes), w').

Definition RequestID : Stage := RequestIDWithGenerator generateRequestID.

(** A function body run under [defer func() { ... recover() ... }()], in a
    function whose results are unnamed.  The deferred function runs on
    every exit and is told what [recover()] returns; when the body panicked,
    the recovered function returns the zero values of its results. *)
Definition defer_recover (body : World -> Outcome * World)
    (deferred : Value -> World -> World) : World -> Outcome * World :=
  fun w =>
    match body w with
    | (Return c o e, w') => (Return c o e, deferred VNil w')
    | (Panic v, w') => (Return None VNil None, deferred v w')
    end.

Definition slog_Default : nat := 0%nat.
Definition slog_LevelError : Z := 8.

(** A [*slog.Logger] is a handle, or nil. *)
Definition Recovery (logger : option nat) : Stage :=
  let logger := match logger with None => slog_Default | Some l => l end in
  fun ctx input =>
    defer_recover
      (fun w => (Return (Some ctx) input None, w))
      (fun r w =>
         if not_nil r then
           let requestID := fst (GetRequestID ctx) in
           let chainName := fst (GetChainName ctx) in
           let stack := stack_text w in
           let logAttrs := [("panic"%string, r); ("stack"%string, VString stack)] in
           let logAttrs :=
             if decide (requestID <> EmptyString)
             then logAttrs ++ [("request_id"%string, VString requestID)]
             else logAttrs in
           let logAttrs :=
             if decide (chainName <> EmptyString)
             then logAttrs ++ [("chain_name"%string, VString chainName)]
             else logAttrs in
           set_logs (logs w ++ [{| log_logger := logger;
                                   log_level := slog_LevelError;
                                   log_msg := "Panic recovered in middleware";
                                   log_attrs := logAttrs |}]) w
         else w).

(** [fmt.Errorf("validation failed: %w", err)] *)
Definition Errorf_validation_failed (err : GoError) : GoError :=
  WrapError ("validation failed: " +:+ err_Error err) err.

Definition Validation (validator : Value -> option GoError) : Stage :=
  fun ctx input w =>
    match validator input with
    | Some err => (Return (Some ctx) VNil (Some (Errorf_validation_failed err)), w)
    | None => (Return (Some (AddMetadata ctx "validated" (VBool true))) input None, w)
    end.

Definition Conditional (condition : Context -> Value -> bool)
    (middleware : MiddlewareFunc) : Stage :=
  fun ctx input w =>
    if negb (condition ctx input)
    then (Return (Some (AddMetadata ctx "conditional_skipped" (VBool true)))
            input None, w)
    else match middleware with
         | Some f => f ctx input w
         | None => (Panic nil_dereference, w)
         end.

(** [time.Duration] is an [int64] number of nanoseconds; [Time.Sub]
    saturates at its bounds. *)
Definition maxDuration : Z := 2 ^ 63 - 1.
Definition minDuration : Z := - 2 ^ 63.

Definition Time_Sub (t u : Z) : Z :=
  let d := t - u in
  if decide (maxDuration < d) then maxDuration
  else if decide (d < minDuration) then minDuration
  else d.

(** Arithmetic on Go's 64-bit [int] wraps around. *)
Definition int_wrap (z : Z) : Z := (z + 2 ^ 63) mod 2 ^ 64 - 2 ^ 63.
Definition maxInt : Z := 2 ^ 63 - 1.
Definition minInt : Z := - 2 ^ 63.

Definition with_bucket (b : nat) (bucket : tokenBucket) (w : World) : World :=
  set_buckets (<[b := bucket]> (buckets w)) w.

(** The closure [RateLimit] returns, over the bucket at address [b]. *)
Definition RateLimit_func (b : nat) : Stage := fun ctx input w =>
  match buckets w !! b with
  | None => (Panic nil_dereference, w)
  | Some bucket =>
      let now := clock w in
      let bucket :=
        if decide (refillRate bucket <= Time_Sub now (lastRefill bucket))
        then {| tokens := capacity bucket; capacity := capacity bucket;
                refillRate := refillRate bucket; lastRefill := now |}
        else bucket in
      if decide (tokens bucket <= 0)
      then (Return (Some ctx) VNil (Some (ErrorString "rate limit exceeded")),
            with_bucket b bucket w)
      else
        let bucket :=
          {| tokens := int_wrap (tokens bucket - 1);
             capacity := capacity bucket;
             refillRate := refillRate bucket;
             lastRefill := lastRefill bucket |} in
        (Return (Some (AddMetadata ctx "rate_limit_remaining"
                         (VInt (tokens bucket)))) input None,
         with_bucket b bucket w)
  end.

(** [RateLimit(requestsPerDuration, duration)]: a new bucket, stamped with
    the current time, and the closure over it. *)
Definition RateLimit (requestsPerDuration : Z) (duration : Z) (w : World)
    : nat * Stage * World :=
  let b := fresh (dom (buckets w)) in
  (b, RateLimit_func b,
   with_bucket b {| tokens := requestsPerDuration;
                    capacity := requestsPerDuration;
                    refillRate := duration;
                    lastRefill := clock w |} w).

(** A caller invoking one middleware several times in a row; each call is
    made at the clock reading given with it. *)
Fixpoint invoke_seq (f : Stage) (calls : list (Z * Context * Value))
    (w : World) : list Outcome * World :=
  match calls with
  | [] => ([], w)
  | (t, ctx, input) :: rest =>
      let '(r, w1) := f ctx input (set_clock t w) in
      let '(rs, w2) := invoke_seq f rest w1 in
      (r :: rs, w2)
  end.

(** Observations on a chain used to state properties: its stage sequence as
    [range c.middlewares] reads it. *)
Definition stages_of (p : nat) : M (list MiddlewareFunc) :=
  c <- load p ;;
  elems (middlewares c).

(** [st'] has every array and every chain of [st], unaltered. *)
Definition extends (st st' : Store) : Prop :=
  arrays st ⊆ arrays st' /\ chains st ⊆ chains st'.

(** Every chain of [st] shows in [st'] the name and the stage sequence it
    shows in [st]. *)
Definition unchanged (st st' : Store) : Prop :=
  forall q nq lq,
    Name q st = Some (nq, st) ->
    stages_of q st = Some (lq, st) ->
    Name q st' = Some (nq, st') /\ stages_of q st' = Some (lq, st').

(** Lowercase hexadecimal digits, and strings made of them. *)
Definition is_lower_hex (c : Ascii.ascii) : bool :=
  let n := Ascii.nat_of_ascii c in
  ((48 <=? n)%nat && (n <=? 57)%nat) || ((97 <=? n)%nat && (n <=? 102)%nat).

Fixpoint string_forall (f : Ascii.ascii -> bool) (s : string) : bool :=
  match s with
  | EmptyString => true
  | String c rest => f c && string_forall f rest
  end.

(** ** Stages and states for worked examples *)

Definition world0 : World :=
  {| clock := 0; entropy := fun i => default Byte.x00 (Byte.of_nat (7 * i + 3));
     entropy_pos := 0; buckets := ∅; logs := []; stack_text := "goroutine 1";
     cells := ∅ |}.

Definition store0 : Store := {| arrays := ∅; chains := ∅ |}.

(** A test stage that counts its calls in the cell [k] and passes its
    arguments through. *)
Definition counting_stage (k : string) : Stage := fun ctx input w =>
  (Return (Some ctx) input None,
   set_cells (<[k := default 0 (cells w !! k) + 1]> (cells w)) w).

(** A test stage that tags the context and fails. *)
Definition failing_stage (msg : string) : Stage := fun ctx input w =>
  (Return (Some (AddMetadata ctx "failed" (VBool true))) (VInt 7)
     (Some (ErrorString msg)), w).

(** A test stage that panics. *)
Definition panicking_stage (msg : string) : Stage := fun ctx input w =>
  (Panic (VString msg), w).

(** The store [NewNamedChain "api" example_stages] builds from the empty
    store: address 0 holds the empty array of the slice literal, address 1
    the array of the chain. *)
Definition example_stages : list MiddlewareFunc :=
  [Some (counting_stage "before"); Some (failing_stage "boom");
   Some (counting_stage "after")].

Definition example_store : Store :=
  {| arrays := <[1%nat := example_stages]> {[0%nat := []]};
     chains := {[0%nat := {| middlewares :=
                              {| base := 1; off := 0; len := 3; cap := 3 |};
                            name := "api" |}]} |}.

(** The same for [NewChain [Recovery(nil); panicking]]. *)
Definition guarded_stages : list MiddlewareFunc :=
  [Some (Recovery None); Some (panicking_stage "kaboom")].

Definition guarded_store : Store :=
  {| arrays := <[1%nat := guarded_stages]> {[0%nat := []]};
     chains := {[0%nat := {| middlewares :=
                              {| base := 1; off := 0; len := 2; cap := 2 |};
                            name := "" |}]} |}.

(** ** Observations used to state further properties *)

(** A test stage that returns what [obs] reads off the context it is
    called with, and passes the context on. *)
Definition probe_stage (obs : Context -> Value) : Stage := fun ctx input w =>
  (Return (Some ctx) (obs ctx) None, w).

(** The outcome is a return with a nil error. *)
Definition succeeded (o : Outcome) : bool :=
  match o with Return _ _ None => true | _ => false end.

(** The value of a hexadecimal digit of [hextable]; 0 for other characters. *)
Definition hex_digit_value (c : Ascii.ascii) : Z :=
  let n := Z.of_nat (Ascii.nat_of_ascii c) in
  if (48 <=? n) && (n <=? 57) then n - 48
  else if (97 <=? n) && (n <=? 102) then n - 87
  else 0.

(** The bytes a string of hexadecimal digit pairs stands for. *)
Fixpoint hex_pairs (s : string) : list Z :=
  match s with
  | String hi (String lo rest) =>
      (16 * hex_digit_value hi + hex_digit_value lo) :: hex_pairs rest
  | _ => []
  end.

(** The limiter's outcome when it lets a call through with [n] tokens
    left, and when it rejects it. *)
Definition limiter_pass (ctx : Context) (input : Value) (n : Z) : Outcome :=
  Return (Some (AddMetadata ctx "rate_limit_remaining" (VInt n))) input None.

Definition limiter_reject (ctx : Context) : Outcome :=
  Return (Some ctx) VNil (Some (ErrorString "rate limit exceeded")).

(** A bucket whose fields are in the ranges [RateLimit] sets them up in,
    for a capacity that is not negative. *)
Definition bucket_ok (bk : tokenBucket) : Prop :=
  0 <= tokens bk <= capacity bk /\ capacity bk <= maxInt.

(* ===================================================================== *)
(** * Properties                                                          *)
(* ===================================================================== *)

(** ** Contexts and metadata *)

Lemma latest_None_iff ctx key : latest ctx key = None <-> ~ set_on ctx key.
Proof.
  induction ctx as [|parent IH k v|parent IH d]; simpl.
  - tauto.
  - destruct (decide (k = key)) as [->|Hne].
    + split; [discriminate | intros H; exfalso; apply H; now left].
    + rewrite IH. tauto.
  - exact IH.
Qed.

Lemma ctx_Value_latest ctx key :
  ctx_Value ctx key = default VNil (latest ctx key).
Proof.
  induction ctx as [|parent IH k v|parent IH d]; simpl; auto.
  destruct (decide (k = key)); auto.
Qed.

Lemma not_nil_false v : not_nil v = false <-> v = VNil.
Proof. destruct v; simpl; split; congruence. Qed.

(** C6, as stated, fails: a key set to the nil value is reported as not
    found, although it was set on the context chain. *)
Lemma GetMetadata_nil_value_not_found :
  ~ (snd (GetMetadata (AddMetadata Background "flag" VNil) "flag") = false
     <-> ~ set_on (AddMetadata Background "flag" VNil) (KString "flag")).
Proof.
  intros [H _]. apply H; [reflexivity | simpl; now left].
Qed.

(** C6, amended: [GetMetadata ctx k] reports found=false exactly when [k] was
    never set on the context chain or its nearest setting stored nil; it
    always returns the value of the nearest setting (nil when there is none)
    and reports found=true exactly when that value is not nil; in particular
    right after [AddMetadata ctx k v] it returns [v], with found=true unless
    [v] is nil. *)
Theorem GetMetadata_found_iff (ctx : Context) (k : string) :
  (snd (GetMetadata ctx k) = false
     <-> (~ set_on ctx (KString k) \/ latest ctx (KString k) = Some VNil))
  /\ GetMetadata ctx k
       = (default VNil (latest ctx (KString k)),
          not_nil (default VNil (latest ctx (KString k))))
  /\ (forall v, GetMetadata (AddMetadata ctx k v) k = (v, not_nil v)).
Proof.
  split; [|split].
  - unfold GetMetadata; simpl. rewrite not_nil_false, ctx_Value_latest.
    rewrite <- latest_None_iff.
    destruct (latest ctx (KString k)) as [v|]; simpl.
    + split; [intros ->; now right | intros [?|[= ->]]; congruence].
    + split; [now left | reflexivity].
  - unfold GetMetadata. now rewrite ctx_Value_latest.
  - intros v. unfold GetMetadata, AddMetadata; simpl.
    now rewrite decide_True by reflexivity.
Qed.

(** C9: the string-keyed bag and the typed request-identifier accessors do
    not see each other's entries: a value stored with
    [AddMetadata ctx "request_id" v] (or under any other string key) leaves
    [GetRequestID] unchanged, and an identifier stored with [SetRequestID]
    leaves [GetMetadata ctx "request_id"] (and every other string key)
    unchanged, because a [metadataKey] never equals a [string] key. *)
Theorem request_id_namespaces_disjoint (ctx : Context) (v : Value)
    (id k : string) :
  GetRequestID (AddMetadata ctx "request_id" v) = GetRequestID ctx
  /\ GetMetadata (SetRequestID ctx id) "request_id" = GetMetadata ctx "request_id"
  /\ GetRequestID (AddMetadata ctx k v) = GetRequestID ctx
  /\ GetMetadata (SetRequestID ctx id) k = GetMetadata ctx k
  /\ KString "request_id" <> requestKey.
Proof.
  unfold GetRequestID, GetMetadata, AddMetadata, SetRequestID, requestKey.
  simpl. repeat split; try (rewrite decide_False by discriminate; reflexivity).
  discriminate.
Qed.

(** ** Request identifiers *)

Lemma hextable_at_high (b : byte) :
  is_lower_hex (hextable_at (Z.shiftr (byte_value b) 4)) = true.
Proof. destruct b; vm_compute; reflexivity. Qed.

Lemma hextable_at_low (b : byte) :
  is_lower_hex (hextable_at (Z.land (byte_value b) 15)) = true.
Proof. destruct b; vm_compute; reflexivity. Qed.

Lemma hex_EncodeToString_length (src : list byte) :
  String.length (hex_EncodeToString src) = (2 * length src)%nat.
Proof.
  induction src as [|v rest IH]; simpl; [reflexivity|]. rewrite IH. lia.
Qed.

Lemma hex_EncodeToString_lower_hex (src : list byte) :
  string_forall is_lower_hex (hex_EncodeToString src) = true.
Proof.
  induction src as [|v rest IH]; simpl; [reflexivity|].
  now rewrite hextable_at_high, hextable_at_low, IH.
Qed.

Lemma rand_Read_length n w : length (fst (rand_Read n w)) = n.
Proof. unfold rand_Read; simpl. now rewrite length_map, length_seq. Qed.

Lemma generateRequestID_eq w :
  generateRequestID w
  = (inl (hex_EncodeToString (fst (rand_Read 8 w))), snd (rand_Read 8 w)).
Proof. reflexivity. Qed.

(** C7: on a context that carries no request identifier, the RequestID
    stage (with any generator) returns the context and the input unchanged
    with no error, leaves the world as it is (the generator is not called)
    and so assigns no identifier.  The generator the package uses always
    returns a string of 16 lowercase hexadecimal digits, computed from the
    next 8 bytes of the random stream alone. *)
Theorem RequestID_passthrough_when_absent (generator : Generator)
    (ctx : Context) (input : Value) (w : World) :
  snd (GetRequestID ctx) = false ->
  RequestIDWithGenerator generator ctx input w = (Return (Some ctx) input None, w)
  /\ RequestID ctx input w = (Return (Some ctx) input None, w)
  /\ (forall w', exists id,
        generateRequestID w' = (inl id, set_entropy_pos (entropy_pos w' + 8) w')
        /\ id = hex_EncodeToString
                  (map (fun i => entropy w' (entropy_pos w' + i)%nat) (seq 0 8))
        /\ String.length id = 16%nat
        /\ string_forall is_lower_hex id = true).
Proof.
  intros Habsent. split; [|split].
  - unfold RequestIDWithGenerator. now rewrite Habsent.
  - unfold RequestID, RequestIDWithGenerator. now rewrite Habsent.
  - intros w'. eexists. split; [reflexivity|]. split; [reflexivity|]. split.
    + now rewrite hex_EncodeToString_length, length_map, length_seq.
    + apply hex_EncodeToString_lower_hex.
Qed.

Lemma RequestID_passthrough_when_absent_witness :
  snd (GetRequestID Background) = false
  /\ RequestID Background (VInt 1) world0
     = (Return (Some Background) (VInt 1) None, world0).
Proof.
  split; [reflexivity|].
  apply (RequestID_passthrough_when_absent generateRequestID Background
           (VInt 1) world0).
  reflexivity.
Defined.

(** C8: on a context that already carries a request identifier, the
    RequestID stage calls the generator and puts the generated identifier
    on the context, where it shadows the old one; the input is returned
    unchanged and there is no error. *)
Theorem RequestID_replaces_existing (generator : Generator) (ctx : Context)
    (input : Value) (w w' : World) (id : string) :
  snd (GetRequestID ctx) = true ->
  generator w = (inl id, w') ->
  RequestIDWithGenerator generator ctx input w
    = (Return (Some (SetRequestID ctx id)) input None, w')
  /\ GetRequestID (SetRequestID ctx id) = (id, true).
Proof.
  intros Hpresent Hgen. split.
  - unfold RequestIDWithGenerator. now rewrite Hpresent, Hgen.
  - unfold GetRequestID, SetRequestID, ctx_Value.
    now rewrite decide_True by reflexivity.
Qed.

Lemma RequestID_replaces_existing_witness :
  RequestID (SetRequestID Background "req-old") (VInt 1) world0
    = (Return (Some (SetRequestID (SetRequestID Background "req-old")
                       "030a11181f262d34")) (VInt 1) None,
       set_entropy_pos 8 world0)
  /\ GetRequestID (SetRequestID (SetRequestID Background "req-old")
                     "030a11181f262d34") = ("030a11181f262d34", true).
Proof.
  apply (RequestID_replaces_existing generateRequestID
           (SetRequestID Background "req-old") (VInt 1) world0
           (set_entropy_pos 8 world0) "030a11181f262d34").
  - reflexivity.
  - reflexivity.
Defined.

(** ** Running a chain *)

Lemma elems_inv s st l st' :
  elems s st = Some (l, st') ->
  st' = st /\ length l = len s /\
  exists arr, arrays st !! base s = Some arr /\ l = take (len s) (drop (off s) arr).
Proof.
  unfold elems. intros H.
  destruct (arrays st !! base s) as [arr|] eqn:Harr; [|discriminate].
  destruct (decide _) as [[Hlen Hcap]|]; [|discriminate].
  injection H as <- <-. split; [reflexivity|]. split.
  - rewrite length_take, length_drop. lia.
  - eauto.
Qed.

Lemma Name_inv p st nm st' :
  Name p st = Some (nm, st') ->
  st' = st /\ exists c, chains st !! p = Some c /\ name c = nm.
Proof.
  unfold Name, bind, load, ret. intros H.
  destruct (chains st !! p) as [c|]; [|discriminate].
  injection H as <- <-. eauto.
Qed.

Lemma Len_inv p st n st' :
  Len p st = Some (n, st') ->
  st' = st /\ exists c, chains st !! p = Some c /\ Z.of_nat (len (middlewares c)) = n.
Proof.
  unfold Len, bind, load, ret. intros H.
  destruct (chains st !! p) as [c|]; [|discriminate].
  injection H as <- <-. eauto.
Qed.

Lemma stages_of_inv p st l st' :
  stages_of p st = Some (l, st') ->
  st' = st /\ exists c, chains st !! p = Some c
                      /\ elems (middlewares c) st = Some (l, st).
Proof.
  unfold stages_of, bind, load. intros H.
  destruct (chains st !! p) as [c|]; [|discriminate].
  destruct (elems_inv _ _ _ _ H) as (-> & _). eauto.
Qed.

Lemma Then_loop_app pre rest i ctx out w :
  Then_loop (pre ++ rest) i ctx out w
  = match Then_loop pre i ctx out w with
    | (Return c o None, w') => Then_loop rest (i + length pre) c o w'
    | r => r
    end.
Proof.
  revert i ctx out w. induction pre as [|mw pre IH]; intros i ctx out w; simpl.
  - now rewrite Nat.add_0_r.
  - destruct ctx as [c|]; [|reflexivity].
    destruct mw as [f|]; [|reflexivity].
    destruct (f _ out w) as [[c2 o2 [err|]|v] w']; try reflexivity.
    rewrite IH. now replace (S i + length pre)%nat with (i + S (length pre))%nat by lia.
Qed.

Lemma Then_run_app nm pre rest ctx input w :
  Then_run nm (pre ++ rest) ctx input w
  = match Then_run nm pre ctx input w with
    | (Return c o None, w') => Then_loop rest (length pre) c o w'
    | r => r
    end.
Proof.
  unfold Then_run. destruct (decide (nm <> EmptyString)).
  - destruct ctx as [c|]; [|reflexivity]. now rewrite Then_loop_app.
  - now rewrite Then_loop_app.
Qed.

Lemma Then_eval st p nm l ctx input w :
  Name p st = Some (nm, st) ->
  stages_of p st = Some (l, st) ->
  l <> [] ->
  Then p ctx input w st = Some (Then_run nm l ctx input w, st).
Proof.
  intros Hname Hstages Hne.
  destruct (Name_inv _ _ _ _ Hname) as (_ & c & Hc & <-).
  destruct (stages_of_inv _ _ _ _ Hstages) as (_ & c' & Hc' & Helems).
  assert (c' = c) as -> by congruence.
  destruct (elems_inv _ _ _ _ Helems) as (_ & Hlen & _).
  unfold Then, bind, load. rewrite Hc.
  destruct (decide (len (middlewares c) = 0%nat)) as [Hz|_].
  - destruct l; [congruence | simpl in Hlen; lia].
  - now rewrite Helems.
Qed.

(** C2: a chain with zero stages is the identity: for every context (nil
    included) and every input, [Then] returns that context and that input
    with no error, leaves the world as it is, and cannot fail. *)
Theorem Then_empty_identity (st : Store) (p : nat) (ctx : option Context)
    (input : Value) (w : World) :
  Len p st = Some (0, st) ->
  Then p ctx input w st = Some ((Return ctx input None, w), st).
Proof.
  intros H. destruct (Len_inv _ _ _ _ H) as (_ & c & Hc & Hlen).
  unfold Then, bind, load. rewrite Hc.
  now rewrite decide_True by lia.
Qed.

Lemma Then_empty_identity_witness :
  NewNamedChain "empty" [] store0
    = Some (0%nat,
            {| arrays := {[0%nat := []]};
               chains := {[0%nat := {| middlewares :=
                                        {| base := 0; off := 0; len := 0; cap := 0 |};
                                      name := "empty" |}]} |})
  /\ Then 0 (Some Background) (VString "x") world0
       {| arrays := {[0%nat := []]};
          chains := {[0%nat := {| middlewares :=
                                   {| base := 0; off := 0; len := 0; cap := 0 |};
                                 name := "empty" |}]} |}
     = Some ((Return (Some Background) (VString "x") None, world0),
             {| arrays := {[0%nat := []]};
                chains := {[0%nat := {| middlewares :=
                                         {| base := 0; off := 0; len := 0; cap := 0 |};
                                       name := "empty" |}]} |}).
Proof.
  split; [vm_compute; reflexivity|].
  apply (Then_empty_identity _ 0%nat (Some Background) (VString "x") world0).
  vm_compute; reflexivity.
Defined.

Lemma Errorf_middleware_failed_wraps i err :
  errors_Unwrap (Errorf_middleware_failed i err) = Some err
  /\ err_Error (Errorf_middleware_failed i err)
     = "middleware " +:+ pretty i +:+ " failed: " +:+ err_Error err.
Proof. split; reflexivity. Qed.

Lemma Then_run_first_failure nm pre f post ctx input w ctx1 out1 w1
    ctx2 out2 err w2 :
  Then_run nm pre ctx input w = (Return (Some ctx1) out1 None, w1) ->
  f (WithValue ctx1 MiddlewareIndexKey (VInt (Z.of_nat (length pre)))) out1 w1
    = (Return ctx2 out2 (Some err), w2) ->
  Then_run nm (pre ++ Some f :: post) ctx input w
  = (Return ctx2 VNil
       (Some (Errorf_middleware_failed (Z.of_nat (length pre)) err)), w2).
Proof.
  intros Hpre Hf. rewrite Then_run_app, Hpre. simpl. now rewrite Hf.
Qed.

(** C1: when the stages before position [k] all return without error and
    the stage at position [k] returns an error, [Then] returns the context
    that stage returned, the nil output, and the stage's error wrapped in an
    error whose message names [k]; the world is the one the failing stage
    left, and the result is the same whatever stages follow position [k], so
    none of them is called. *)
Theorem Then_stops_at_first_failure (st : Store) (p : nat) (nm : string)
    (pre post : list MiddlewareFunc) (f : Stage)
    (ctx : option Context) (input : Value) (w : World)
    (ctx1 : Context) (out1 : Value) (w1 : World)
    (ctx2 : option Context) (out2 : Value) (err : GoError) (w2 : World) :
  Name p st = Some (nm, st) ->
  stages_of p st = Some (pre ++ Some f :: post, st) ->
  Then_run nm pre ctx input w = (Return (Some ctx1) out1 None, w1) ->
  f (WithValue ctx1 MiddlewareIndexKey (VInt (Z.of_nat (length pre)))) out1 w1
    = (Return ctx2 out2 (Some err), w2) ->
  Then p ctx input w st
    = Some ((Return ctx2 VNil
               (Some (Errorf_middleware_failed (Z.of_nat (length pre)) err)),
             w2), st)
  /\ (forall post',
        Then_run nm (pre ++ Some f :: post') ctx input w
        = (Return ctx2 VNil
             (Some (Errorf_middleware_failed (Z.of_nat (length pre)) err)),
           w2))
  /\ errors_Unwrap (Errorf_middleware_failed (Z.of_nat (length pre)) err)
     = Some err
  /\ err_Error (Errorf_middleware_failed (Z.of_nat (length pre)) err)
     = "middleware " +:+ pretty (Z.of_nat (length pre)) +:+ " failed: "
         +:+ err_Error err.
Proof.
  intros Hname Hstages Hpre Hf. split; [|split].
  - rewrite (Then_eval st p nm (pre ++ Some f :: post)); auto.
    + now rewrite (Then_run_first_failure _ _ _ _ _ _ _ _ _ _ _ _ _ _ Hpre Hf).
    + now destruct pre.
  - intros post'. eapply Then_run_first_failure; eauto.
  - apply Errorf_middleware_failed_wraps.
Qed.

Lemma Then_stops_at_first_failure_witness :
  NewNamedChain "api" example_stages store0 = Some (0%nat, example_store)
  /\ Then 0 (Some Background) (VString "payload") world0 example_store
     = Some ((Return
                (Some (AddMetadata
                         (WithValue
                            (WithValue
                               (WithValue Background ChainNameKey (VString "api"))
                               MiddlewareIndexKey (VInt 0))
                            MiddlewareIndexKey (VInt 1))
                         "failed" (VBool true)))
                VNil
                (Some (WrapError "middleware 1 failed: boom" (ErrorString "boom"))),
              set_cells {["before" := 1]} world0), example_store).
Proof.
  split; [vm_compute; reflexivity|].
  apply (Then_stops_at_first_failure example_store 0%nat "api"
           [Some (counting_stage "before")] [Some (counting_stage "after")]
           (failing_stage "boom") (Some Background) (VString "payload") world0
           (WithValue (WithValue Background ChainNameKey (VString "api"))
              MiddlewareIndexKey (VInt 0))
           (VString "payload") (set_cells {["before" := 1]} world0)
           _ (VInt 7) (ErrorString "boom") _).
  - vm_compute; reflexivity.
  - vm_compute; reflexivity.
  - vm_compute; reflexivity.
  - vm_compute; reflexivity.
Defined.

(** The stage after the failing one did not run: its counter was never
    created, while the counter of the stage before it stands at 1. *)
Example Then_example_counters :
  (fun r => (cells (snd (fst r)) !! "before", cells (snd (fst r)) !! "after"))
    <$> Then 0 (Some Background) (VString "payload") world0 example_store
  = Some (Some 1, None).
Proof. vm_compute; reflexivity. Qed.

(** ** Recovery *)

(** The body of the [Recovery] closure is a bare [return], so the deferred
    function always sees [recover()] return nil: the stage is the identity
    and never logs. *)
Lemma Recovery_eval logger ctx input w :
  Recovery logger ctx input w = (Return (Some ctx) input None, w).
Proof. reflexivity. Qed.

(** [Then] itself has no [recover]: a panic of any stage reached by the loop
    leaves [Then] as a panic, whatever ran before it. *)
Lemma Then_run_panic nm pre f post ctx input w ctx1 out1 w1 v w2 :
  Then_run nm pre ctx input w = (Return (Some ctx1) out1 None, w1) ->
  f (WithValue ctx1 MiddlewareIndexKey (VInt (Z.of_nat (length pre)))) out1 w1
    = (Panic v, w2) ->
  Then_run nm (pre ++ Some f :: post) ctx input w = (Panic v, w2).
Proof.
  intros Hpre Hf. rewrite Then_run_app, Hpre. simpl. now rewrite Hf.
Qed.

Lemma Recovery_upstream_does_not_contain logger nm f post ctx input w v w2 :
  f (WithValue
       (if decide (nm <> EmptyString)
        then WithValue (WithValue ctx ChainNameKey (VString nm))
               MiddlewareIndexKey (VInt 0)
        else WithValue ctx MiddlewareIndexKey (VInt 0))
       MiddlewareIndexKey (VInt 1)) input w = (Panic v, w2) ->
  Then_run nm (Some (Recovery logger) :: Some f :: post) (Some ctx) input w
  = (Panic v, w2).
Proof.
  intros Hf. unfold Then_run.
  destruct (decide (nm <> EmptyString)); cbn [Then_loop];
    rewrite Recovery_eval; cbn [Then_loop];
    change (Z.of_nat 0) with 0; change (Z.of_nat 1) with 1;
    rewrite Hf; reflexivity.
Qed.

(** C3, evaluated on the code: with [Recovery] placed before a stage that
    panics, [Then] does not return a failure result: the panic leaves
    [Then] with the stage's panic value, and nothing is logged. *)
Theorem Recovery_then_panic_propagates :
  NewChain guarded_stages store0 = Some (0%nat, guarded_store)
  /\ Then 0 (Some Background) (VString "payload") world0 guarded_store
     = Some ((Panic (VString "kaboom"), world0), guarded_store)
  /\ logs world0 = [].
Proof. repeat split; vm_compute; reflexivity. Qed.

(** ** RateLimit *)

Lemma int_wrap_in_range z : minInt <= z <= maxInt -> int_wrap z = z.
Proof.
  unfold minInt, maxInt, int_wrap.
  change (2 ^ 63) with 9223372036854775808.
  change (2 ^ 64) with 18446744073709551616.
  intros H. rewrite Z.mod_small; lia.
Qed.

Section OneCall.
Variables (b : nat) (bk : tokenBucket) (ctx : Context) (input : Value)
          (w : World).
Hypothesis Hbucket : buckets w !! b = Some bk.

(** Inside the interval, with a token left: the call takes one token. *)
Lemma RateLimit_func_consume :
  Time_Sub (clock w) (lastRefill bk) < refillRate bk ->
  0 < tokens bk <= maxInt ->
  RateLimit_func b ctx input w
  = (Return (Some (AddMetadata ctx "rate_limit_remaining"
                     (VInt (tokens bk - 1)))) input None,
     with_bucket b {| tokens := tokens bk - 1; capacity := capacity bk;
                      refillRate := refillRate bk;
                      lastRefill := lastRefill bk |} w).
Proof.
  intros Hin Htok. unfold RateLimit_func. rewrite Hbucket. cbv zeta.
  destruct (decide (refillRate bk <= _)) as [?|_]; [lia|].
  destruct (decide (tokens bk <= 0)) as [?|_]; [lia|].
  cbn [tokens capacity refillRate lastRefill].
  rewrite int_wrap_in_range; [reflexivity | unfold minInt, maxInt in *; lia].
Qed.

(** Inside the interval, with no token left: the call fails and the
    bucket stays as it is. *)
Lemma RateLimit_func_exhausted :
  Time_Sub (clock w) (lastRefill bk) < refillRate bk ->
  tokens bk <= 0 ->
  RateLimit_func b ctx input w
  = (Return (Some ctx) VNil (Some (ErrorString "rate limit exceeded")),
     with_bucket b bk w).
Proof.
  intros Hin Htok. unfold RateLimit_func. rewrite Hbucket. cbv zeta.
  destruct (decide (refillRate bk <= _)) as [?|_]; [lia|].
  destruct (decide (tokens bk <= 0)) as [_|?]; [reflexivity|lia].
Qed.

(** Once the interval has elapsed: the bucket is refilled to its capacity,
    stamped with the current time, and the call takes one token. *)
Lemma RateLimit_func_refill :
  refillRate bk <= Time_Sub (clock w) (lastRefill bk) ->
  0 < capacity bk <= maxInt ->
  RateLimit_func b ctx input w
  = (Return (Some (AddMetadata ctx "rate_limit_remaining"
                     (VInt (capacity bk - 1)))) input None,
     with_bucket b {| tokens := capacity bk - 1; capacity := capacity bk;
                      refillRate := refillRate bk;
                      lastRefill := clock w |} w).
Proof.
  intros Hout Hcap. unfold RateLimit_func. rewrite Hbucket. cbv zeta.
  destruct (decide (refillRate bk <= _)) as [_|?]; [|lia].
  cbn [tokens capacity refillRate lastRefill].
  destruct (decide (capacity bk <= 0)) as [?|_]; [lia|].
  rewrite int_wrap_in_range; [reflexivity | unfold minInt, maxInt in *; lia].
Qed.
End OneCall.

Lemma with_bucket_lookup b bk w : buckets (with_bucket b bk w) !! b = Some bk.
Proof. unfold with_bucket; simpl. apply lookup_insert_eq. Qed.

(** Calls made one after the other inside the interval, no more of them
    than there are tokens: call [i] succeeds and reports [n - 1 - i]. *)
Lemma invoke_seq_consume b C D t0 calls :
  forall (n : Z) (w : World),
    buckets w !! b = Some {| tokens := n; capacity := C; refillRate := D;
                             lastRefill := t0 |} ->
    Z.of_nat (length calls) <= n <= maxInt ->
    Forall (fun c => Time_Sub c.1.1 t0 < D) calls ->
    length (invoke_seq (RateLimit_func b) calls w).1 = length calls
    /\ (forall (i : nat) t ctx x,
          calls !! i = Some (t, ctx, x) ->
          (invoke_seq (RateLimit_func b) calls w).1 !! i
          = Some (Return (Some (AddMetadata ctx "rate_limit_remaining"
                                  (VInt (n - 1 - Z.of_nat i)))) x None))
    /\ buckets (invoke_seq (RateLimit_func b) calls w).2 !! b
       = Some {| tokens := n - Z.of_nat (length calls); capacity := C;
                 refillRate := D; lastRefill := t0 |}.
Proof.
  induction calls as [|[[t ctx] x] rest IH]; intros n w Hb Hn Hall.
  - simpl. repeat split; [intros i ? ? ? H; discriminate H|].
    rewrite Hb. do 2 f_equal. lia.
  - apply Forall_cons in Hall as [Ht Hrest]. simpl in Ht, Hn.
    cbn [invoke_seq].
    rewrite (RateLimit_func_consume b _ ctx x (set_clock t w) Hb)
      by (simpl; lia).
    cbn [tokens capacity refillRate lastRefill].
    destruct (IH (n - 1) _ (with_bucket_lookup b _ (set_clock t w)))
      as (Hlen & Hres & Hfin); [lia | exact Hrest |].
    destruct (invoke_seq (RateLimit_func b) rest _) as [rs w2].
    simpl in *. split; [now rewrite Hlen|]. split.
    + intros [|i] t' ctx' x' Hi; simpl in Hi |- *.
      * injection Hi as <- <- <-. do 5 f_equal. lia.
      * rewrite (Hres i t' ctx' x' Hi). do 5 f_equal. lia.
    + rewrite Hfin. do 2 f_equal. lia.
Qed.

Lemma RateLimit_eval C D w0 :
  RateLimit C D w0
  = (fresh (dom (buckets w0)), RateLimit_func (fresh (dom (buckets w0))),
     with_bucket (fresh (dom (buckets w0)))
       {| tokens := C; capacity := C; refillRate := D;
          lastRefill := clock w0 |} w0).
Proof. reflexivity. Qed.

(** C4: a limiter built with capacity [C >= 1] and interval [D] at time
    [clock w0], then called sequentially: [C] calls made before [D] has
    elapsed all succeed, call [i] recording [C - 1 - i] as the remaining
    count; one more call before [D] has elapsed fails with "rate limit
    exceeded" and leaves the bucket, with its 0 tokens, unchanged; a call
    made once [D] has elapsed since the last refill succeeds, records
    [C - 1], and leaves the bucket refilled to [C] less the token it took,
    stamped with the time of that call. *)
Theorem RateLimit_token_bucket (C D : Z) (w0 : World)
    (calls : list (Z * Context * Value))
    (tA : Z) (ctxA : Context) (inA : Value)
    (tB : Z) (ctxB : Context) (inB : Value) :
  1 <= C <= maxInt ->
  length calls = Z.to_nat C ->
  Forall (fun c => Time_Sub c.1.1 (clock w0) < D) calls ->
  Time_Sub tA (clock w0) < D ->
  D <= Time_Sub tB (clock w0) ->
  let b := (RateLimit C D w0).1.1 in
  let limiter := (RateLimit C D w0).1.2 in
  let first := invoke_seq limiter calls (RateLimit C D w0).2 in
  let rA := limiter ctxA inA (set_clock tA first.2) in
  let rB := limiter ctxB inB (set_clock tB rA.2) in
  length first.1 = length calls
  /\ (forall (i : nat) t ctx x,
        calls !! i = Some (t, ctx, x) ->
        first.1 !! i
        = Some (Return (Some (AddMetadata ctx "rate_limit_remaining"
                                (VInt (C - 1 - Z.of_nat i)))) x None))
  /\ rA.1 = Return (Some ctxA) VNil (Some (ErrorString "rate limit exceeded"))
  /\ buckets rA.2 !! b = buckets first.2 !! b
  /\ buckets rA.2 !! b
     = Some {| tokens := 0; capacity := C; refillRate := D;
               lastRefill := clock w0 |}
  /\ rB.1 = Return (Some (AddMetadata ctxB "rate_limit_remaining"
                            (VInt (C - 1)))) inB None
  /\ GetMetadata (AddMetadata ctxB "rate_limit_remaining" (VInt (C - 1)))
       "rate_limit_remaining" = (VInt (C - 1), true)
  /\ buckets rB.2 !! b
     = Some {| tokens := C - 1; capacity := C; refillRate := D;
               lastRefill := tB |}.
Proof.
  intros HC Hlen Hcalls HtA HtB b limiter first rA rB.
  subst limiter.
  change ((RateLimit C D w0).1.2) with (RateLimit_func b) in *.
  change ((RateLimit C D w0).2)
    with (with_bucket b {| tokens := C; capacity := C; refillRate := D;
                           lastRefill := clock w0 |} w0) in *.
  clearbody b.
  destruct (invoke_seq_consume b C D (clock w0) calls C
              (with_bucket b {| tokens := C; capacity := C; refillRate := D;
                                lastRefill := clock w0 |} w0))
    as (Hl & Hres & Hfin);
    [apply with_bucket_lookup | lia | exact Hcalls |].
  fold first in Hl, Hres, Hfin.
  replace (C - Z.of_nat (length calls)) with 0 in Hfin by lia.
  assert (HA : rA = (Return (Some ctxA) VNil
                       (Some (ErrorString "rate limit exceeded")),
                     with_bucket b {| tokens := 0; capacity := C;
                                      refillRate := D;
                                      lastRefill := clock w0 |}
                       (set_clock tA first.2))).
  { subst rA. apply RateLimit_func_exhausted; simpl; [exact Hfin|lia|lia]. }
  assert (HB : rB = (Return (Some (AddMetadata ctxB "rate_limit_remaining"
                                     (VInt (C - 1)))) inB None,
                     with_bucket b {| tokens := C - 1; capacity := C;
                                      refillRate := D; lastRefill := tB |}
                       (set_clock tB rA.2))).
  { subst rB. rewrite HA. cbn [snd].
    apply (RateLimit_func_refill b
             {| tokens := 0; capacity := C; refillRate := D;
                lastRefill := clock w0 |}); simpl;
      [apply lookup_insert_eq | lia | lia]. }
  split; [exact Hl|]. split; [exact Hres|].
  rewrite HB, HA. cbn [fst snd].
  repeat split.
  - rewrite with_bucket_lookup. now rewrite Hfin.
  - apply with_bucket_lookup.
  - apply with_bucket_lookup.
Qed.

Lemma RateLimit_token_bucket_witness :
  (invoke_seq (RateLimit 2 1000 world0).1.2
     [(10, Background, VInt 1); (20, Background, VInt 2)]
     (RateLimit 2 1000 world0).2).1 !! 1%nat
  = Some (Return (Some (AddMetadata Background "rate_limit_remaining" (VInt 0)))
            (VInt 2) None)
  /\ ((RateLimit 2 1000 world0).1.2 Background (VInt 3)
        (set_clock 30
           (invoke_seq (RateLimit 2 1000 world0).1.2
              [(10, Background, VInt 1); (20, Background, VInt 2)]
              (RateLimit 2 1000 world0).2).2)).1
     = Return (Some Background) VNil (Some (ErrorString "rate limit exceeded")).
Proof.
  assert (H1 : 1 <= 2 <= maxInt) by (unfold maxInt; lia).
  assert (H2 : length [(10, Background, VInt 1); (20, Background, VInt 2)]
               = Z.to_nat 2) by reflexivity.
  assert (H3 : Forall (fun c : Z * Context * Value =>
                         Time_Sub c.1.1 (clock world0) < 1000)
                 [(10, Background, VInt 1); (20, Background, VInt 2)])
    by (repeat constructor).
  assert (H4 : Time_Sub 30 (clock world0) < 1000) by reflexivity.
  assert (H5 : 1000 <= Time_Sub 1000 (clock world0)) by (vm_compute; discriminate).
  pose proof (RateLimit_token_bucket 2 1000 world0
                [(10, Background, VInt 1); (20, Background, VInt 2)]
                30 Background (VInt 3) 1000 Background (VInt 4)
                H1 H2 H3 H4 H5) as (_ & Hres & HA & _).
  split.
  - exact (Hres 1%nat 20 Background (VInt 2) eq_refl).
  - exact HA.
Defined.

(** ** Building and extending chains *)

Lemma fresh_array st : arrays st !! fresh (dom (arrays st)) = None.
Proof. apply not_elem_of_dom, is_fresh. Qed.

Lemma fresh_chain st : chains st !! fresh (dom (chains st)) = None.
Proof. apply not_elem_of_dom, is_fresh. Qed.

Lemma extends_refl st : extends st st.
Proof. split; reflexivity. Qed.

Lemma extends_trans st1 st2 st3 :
  extends st1 st2 -> extends st2 st3 -> extends st1 st3.
Proof. intros [? ?] [? ?]. split; etransitivity; eauto. Qed.

Lemma extends_new_array st a arr :
  arrays st !! a = None ->
  extends st {| arrays := <[a := arr]> (arrays st); chains := chains st |}.
Proof. intros H. split; simpl; [now apply insert_subseteq | reflexivity]. Qed.

Lemma extends_new_chain st p c :
  chains st !! p = None ->
  extends st {| arrays := arrays st; chains := <[p := c]> (chains st) |}.
Proof. intros H. split; simpl; [reflexivity | now apply insert_subseteq]. Qed.

Lemma elems_eval s st arr :
  arrays st !! base s = Some arr ->
  (len s <= cap s)%nat -> (off s + cap s <= length arr)%nat ->
  elems s st = Some (take (len s) (drop (off s) arr), st).
Proof.
  intros Harr H1 H2. unfold elems. rewrite Harr.
  now rewrite decide_True by (split; assumption).
Qed.

Lemma elems_extends s st st' l :
  elems s st = Some (l, st) -> extends st st' -> elems s st' = Some (l, st').
Proof.
  unfold elems. intros H [Harr _].
  destruct (arrays st !! base s) as [arr|] eqn:E; [|discriminate].
  rewrite (lookup_weaken _ _ _ _ E Harr).
  destruct (decide _); [|discriminate]. now injection H as <-.
Qed.

Lemma Name_extends q st st' nq :
  Name q st = Some (nq, st) -> extends st st' -> Name q st' = Some (nq, st').
Proof.
  intros H [_ Hch]. destruct (Name_inv _ _ _ _ H) as (_ & c & Hc & <-).
  unfold Name, bind, load, ret. now rewrite (lookup_weaken _ _ _ _ Hc Hch).
Qed.

Lemma stages_of_extends q st st' lq :
  stages_of q st = Some (lq, st) -> extends st st' ->
  stages_of q st' = Some (lq, st').
Proof.
  intros H Hext. destruct (stages_of_inv _ _ _ _ H) as (_ & c & Hc & He).
  unfold stages_of, bind, load. rewrite (lookup_weaken _ _ _ _ Hc (proj2 Hext)).
  eauto using elems_extends.
Qed.

Lemma extends_unchanged st st' : extends st st' -> unchanged st st'.
Proof.
  intros Hext q nq lq Hn Hs.
  eauto using Name_extends, stages_of_extends.
Qed.

(** [Then] is defined on every live chain, and reads nothing but the
    chain's name and stage sequence. *)
Lemma Then_total st p nm l ctx input w :
  Name p st = Some (nm, st) ->
  stages_of p st = Some (l, st) ->
  Then p ctx input w st
  = Some (match l with
          | [] => (Return ctx input None, w)
          | _ :: _ => Then_run nm l ctx input w
          end, st).
Proof.
  intros Hn Hs. destruct l as [|mw l].
  - apply Then_empty_identity.
    destruct (stages_of_inv _ _ _ _ Hs) as (_ & c & Hc & He).
    destruct (elems_inv _ _ _ _ He) as (_ & Hlen & _).
    unfold Len, bind, load, ret. rewrite Hc. simpl in Hlen. now rewrite <- Hlen.
  - now apply Then_eval.
Qed.

Lemma copy_eval dst src st arr :
  arrays st !! base dst = Some arr ->
  (len dst <= cap dst)%nat -> (off dst + cap dst <= length arr)%nat ->
  copy dst src st
  = Some (Nat.min (len dst) (length src),
          {| arrays :=
               <[base dst :=
                   take (off dst) arr
                     ++ take (Nat.min (len dst) (length src)) src
                     ++ drop (off dst + Nat.min (len dst) (length src)) arr]>
                 (arrays st);
             chains := chains st |}).
Proof.
  intros Harr H1 H2. unfold copy. rewrite Harr.
  now rewrite decide_True by (split; assumption).
Qed.

(** What the two [copy] calls of [Append] and [Prepend] leave in the array:
    the first fills the front of a fresh array, the second the rest. *)
Lemma copy_front (x : list MiddlewareFunc) (a b n : nat) :
  length x = a -> n = (a + b)%nat ->
  take 0 (replicate n None) ++ take (Nat.min n (length x)) x
    ++ drop (0 + Nat.min n (length x)) (replicate n (@None Stage))
  = x ++ replicate b None.
Proof.
  intros Hx ->. rewrite Hx. rewrite Nat.min_r by lia. simpl.
  rewrite take_ge by lia. now rewrite drop_replicate_add.
Qed.

Lemma copy_back (x y : list MiddlewareFunc) (a b : nat) :
  length x = a -> length y = b ->
  take a (x ++ replicate b None) ++ take (Nat.min b (length y)) y
    ++ drop (a + Nat.min b (length y)) (x ++ replicate b (@None Stage))
  = x ++ y.
Proof.
  intros Hx Hy. rewrite Hy, Nat.min_id.
  rewrite take_app_length' by auto.
  rewrite take_ge by lia.
  rewrite drop_ge by (rewrite length_app, length_replicate; lia).
  now rewrite app_nil_r.
Qed.

(** [Append] on a live chain: one new array holding the chain's stages
    followed by the added ones, and one new [Chain] over it. *)
Lemma Append_eval st p nm l E :
  Name p st = Some (nm, st) ->
  stages_of p st = Some (l, st) ->
  Append p E st
  = Some (fresh (dom (chains st)),
          {| arrays := <[fresh (dom (arrays st)) := l ++ E]> (arrays st);
             chains :=
               <[fresh (dom (chains st)) :=
                   {| middlewares :=
                        {| base := fresh (dom (arrays st)); off := 0;
                           len := length l + length E;
                           cap := length l + length E |};
                      name := nm |}]> (chains st) |}).
Proof.
  intros Hn Hs.
  destruct (Name_inv _ _ _ _ Hn) as (_ & c & Hc & <-).
  destruct (stages_of_inv _ _ _ _ Hs) as (_ & c' & Hc' & He).
  assert (c' = c) as -> by congruence.
  destruct (elems_inv _ _ _ _ He) as (_ & Hlen & _).
  unfold Append. unfold bind at 1, load. rewrite Hc.
  unfold bind at 1, make.
  set (a := fresh (dom (arrays st))).
  rewrite <- Hlen.
  set (st1 := {| arrays := <[a:=replicate (length l + length E) None]> (arrays st); chains := chains st |}).
  assert (Hext1 : extends st st1) by apply extends_new_array, fresh_array.
  unfold bind at 1. rewrite (elems_extends _ _ _ _ He Hext1).
  unfold bind at 1.
  rewrite (copy_eval _ _ st1 (replicate (length l + length E) None));
    [| apply lookup_insert_eq | simpl; lia | simpl; rewrite length_replicate; lia].
  cbn [base off len cap].
  rewrite (copy_front l (length l) (length E)) by reflexivity.
  unfold bind at 1, slice_from. cbn [base off len cap].
  rewrite decide_True by lia.
  unfold bind at 1.
  replace (length l + length E - length l)%nat with (length E) by lia.
  rewrite (copy_eval _ _ _ (l ++ replicate (length E) None));
    [| apply lookup_insert_eq | simpl; lia
     | simpl; rewrite length_app, length_replicate; lia].
  cbn [base off len cap arrays chains]. rewrite Nat.add_0_l.
  rewrite (copy_back l E (length l) (length E)) by reflexivity.
  unfold st1; cbn [arrays chains]. rewrite !insert_insert_eq.
  reflexivity.
Qed.

Lemma Prepend_eval st p nm l E :
  Name p st = Some (nm, st) ->
  stages_of p st = Some (l, st) ->
  Prepend p E st
  = Some (fresh (dom (chains st)),
          {| arrays := <[fresh (dom (arrays st)) := E ++ l]> (arrays st);
             chains :=
               <[fresh (dom (chains st)) :=
                   {| middlewares :=
                        {| base := fresh (dom (arrays st)); off := 0;
                           len := length E + length l;
                           cap := length E + length l |};
                      name := nm |}]> (chains st) |}).
Proof.
  intros Hn Hs.
  destruct (Name_inv _ _ _ _ Hn) as (_ & c & Hc & <-).
  destruct (stages_of_inv _ _ _ _ Hs) as (_ & c' & Hc' & He).
  assert (c' = c) as -> by congruence.
  destruct (elems_inv _ _ _ _ He) as (_ & Hlen & _).
  unfold Prepend. unfold bind at 1, load. rewrite Hc.
  unfold bind at 1, make.
  set (a := fresh (dom (arrays st))).
  rewrite <- Hlen.
  unfold bind at 1.
  rewrite (copy_eval _ _ _ (replicate (length E + length l) None));
    [| apply lookup_insert_eq | simpl; lia | simpl; rewrite length_replicate; lia].
  cbn [base off len cap arrays chains].
  rewrite (copy_front E (length E) (length l)) by reflexivity.
  rewrite insert_insert_eq.
  unfold bind at 1, slice_from. cbn [base off len cap].
  rewrite decide_True by lia.
  unfold bind at 1.
  rewrite (elems_extends _ st _ _ He)
    by (apply extends_new_array, fresh_array).
  unfold bind at 1.
  replace (length E + length l - length E)%nat with (length l) by lia.
  rewrite (copy_eval _ _ _ (E ++ replicate (length l) None));
    [| apply lookup_insert_eq | simpl; lia
     | simpl; rewrite length_app, length_replicate; lia].
  cbn [base off len cap arrays chains]. rewrite Nat.add_0_l.
  rewrite (copy_back E l (length E) (length l)) by reflexivity.
  rewrite insert_insert_eq.
  reflexivity.
Qed.

Lemma Clone_eval st p nm l :
  Name p st = Some (nm, st) ->
  stages_of p st = Some (l, st) ->
  Clone p st
  = Some (fresh (dom (chains st)),
          {| arrays := <[fresh (dom (arrays st)) := l]> (arrays st);
             chains :=
               <[fresh (dom (chains st)) :=
                   {| middlewares :=
                        {| base := fresh (dom (arrays st)); off := 0;
                           len := length l; cap := length l |};
                      name := nm |}]> (chains st) |}).
Proof.
  intros Hn Hs.
  destruct (Name_inv _ _ _ _ Hn) as (_ & c & Hc & <-).
  destruct (stages_of_inv _ _ _ _ Hs) as (_ & c' & Hc' & He).
  assert (c' = c) as -> by congruence.
  destruct (elems_inv _ _ _ _ He) as (_ & Hlen & _).
  unfold Clone. unfold bind at 1, load. rewrite Hc.
  unfold bind at 1, make.
  set (a := fresh (dom (arrays st))).
  rewrite <- Hlen.
  unfold bind at 1.
  rewrite (elems_extends _ st _ _ He)
    by (apply extends_new_array, fresh_array).
  unfold bind at 1.
  rewrite (copy_eval _ _ _ (replicate (length l) None));
    [| apply lookup_insert_eq | simpl; lia | simpl; rewrite length_replicate; lia].
  cbn [base off len cap arrays chains].
  rewrite (copy_front l (length l) 0) by lia.
  rewrite insert_insert_eq. simpl replicate. rewrite app_nil_r.
  reflexivity.
Qed.

Lemma alloc_chain_spec st s nm l :
  elems s st = Some (l, st) ->
  exists p' st',
    alloc_chain {| middlewares := s; name := nm |} st = Some (p', st')
    /\ extends st st'
    /\ chains st !! p' = None
    /\ Name p' st' = Some (nm, st')
    /\ stages_of p' st' = Some (l, st').
Proof.
  intros He. eexists _, _. split; [reflexivity|].
  assert (Hext : extends st
            {| arrays := arrays st;
               chains := <[fresh (dom (chains st)) :=
                             {| middlewares := s; name := nm |}]> (chains st) |})
    by apply extends_new_chain, fresh_chain.
  split; [exact Hext|]. split; [apply fresh_chain|]. split.
  - unfold Name, bind, load, ret; cbn [chains]. now rewrite lookup_insert_eq.
  - unfold stages_of, bind, load; cbn [chains]. rewrite lookup_insert_eq.
    cbn [middlewares]. eauto using elems_extends.
Qed.

Lemma NewNamedChain_spec st nm mws :
  exists p' st',
    NewNamedChain nm mws st = Some (p', st')
    /\ extends st st'
    /\ chains st !! p' = None
    /\ Name p' st' = Some (nm, st')
    /\ stages_of p' st' = Some (mws, st').
Proof.
  unfold NewNamedChain. unfold bind at 1, make.
  set (a0 := fresh (dom (arrays st))).
  set (st1 := {| arrays := <[a0 := replicate 0 None]> (arrays st);
                 chains := chains st |}).
  assert (Hext1 : extends st st1) by apply extends_new_array, fresh_array.
  unfold bind at 1, go_append. cbn [base off len cap].
  destruct (decide (0 + length mws <= 0)%nat) as [Hz|Hnz].
  - destruct mws as [|? ?]; [|simpl in Hz; lia].
    unfold bind at 1.
    rewrite (copy_eval _ _ st1 []);
      [| apply lookup_insert_eq | simpl; lia | simpl; lia].
    cbn [base off len cap arrays chains length]. simpl.
    rewrite insert_insert_eq.
    destruct (alloc_chain_spec
                {| arrays := <[a0:=[]]> (arrays st); chains := chains st |}
                {| base := a0; off := 0; len := 0; cap := 0 |} nm [])
      as (p' & st' & Halloc & Hext & Hfresh & Hname & Hstages).
    { rewrite (elems_eval _ _ []); simpl;
        [reflexivity | apply lookup_insert_eq | lia | lia]. }
    exists p', st'. split; [exact Halloc|].
    split; [eauto using extends_trans | auto].
  - unfold bind at 1.
    rewrite (elems_eval _ st1 []);
      [| apply lookup_insert_eq | simpl; lia | simpl; lia].
    cbn [base off len cap take drop].
    unfold bind at 1, make.
    set (a1 := fresh (dom (arrays st1))).
    unfold bind at 1.
    rewrite (copy_eval _ _ _ (replicate (0 + length mws) None));
      [| apply lookup_insert_eq | simpl; lia
       | simpl; rewrite length_replicate; lia].
    cbn [base off len cap arrays chains app].
    rewrite (copy_front mws (length mws) 0) by lia.
    rewrite insert_insert_eq. simpl replicate. rewrite app_nil_r.
    assert (Hext2 : extends st1
              {| arrays := <[a1 := mws]> (arrays st1); chains := chains st |})
      by apply (extends_new_array st1), fresh_array.
    destruct (alloc_chain_spec
                {| arrays := <[a1 := mws]> (arrays st1); chains := chains st |}
                {| base := a1; off := 0; len := 0 + length mws;
                   cap := 0 + length mws |} nm mws)
      as (p' & st' & Halloc & Hext & Hfresh & Hname & Hstages).
    { rewrite (elems_eval _ _ mws); cbn [base off len cap arrays].
      - rewrite drop_0, take_ge by (simpl; lia). reflexivity.
      - apply lookup_insert_eq.
      - lia.
      - simpl; lia. }
    exists p', st'. unfold ret. split; [exact Halloc|].
    split; [eauto using extends_trans | auto].
Qed.

(** What a store gains from one new array and one new chain over it. *)
Lemma new_chain_store st nm x n :
  n = length x ->
  let a := fresh (dom (arrays st)) in
  let p' := fresh (dom (chains st)) in
  let st' := {| arrays := <[a := x]> (arrays st);
                chains := <[p' := {| middlewares :=
                                      {| base := a; off := 0; len := n; cap := n |};
                                    name := nm |}]> (chains st) |} in
  extends st st'
  /\ Name p' st' = Some (nm, st')
  /\ stages_of p' st' = Some (x, st')
  /\ (forall c, chains st' !! p' = Some c -> base (middlewares c) = a).
Proof.
  intros -> a p' st'. split; [|split; [|split]].
  - split; cbn [arrays chains];
      apply insert_subseteq; [apply fresh_array | apply fresh_chain].
  - unfold Name, bind, load, ret, st'; cbn [chains].
    now rewrite lookup_insert_eq.
  - unfold stages_of, bind, load, st'; cbn [chains].
    rewrite lookup_insert_eq. cbn [middlewares].
    rewrite (elems_eval _ _ x); cbn [base off len cap arrays];
      [| apply lookup_insert_eq | lia | simpl; lia].
    now rewrite drop_0, take_ge by lia.
  - intros c. unfold st'; cbn [chains]. rewrite lookup_insert_eq.
    now intros [= <-].
Qed.

(** A live chain does not sit at a fresh address, nor its array. *)
Lemma live_chain_not_fresh st p l :
  stages_of p st = Some (l, st) ->
  p <> fresh (dom (chains st))
  /\ (forall c, chains st !! p = Some c ->
                base (middlewares c) <> fresh (dom (arrays st))).
Proof.
  intros Hs. destruct (stages_of_inv _ _ _ _ Hs) as (_ & c & Hc & He).
  split.
  - intros ->. rewrite fresh_chain in Hc. discriminate.
  - intros c' Hc' Heq. assert (c' = c) as -> by congruence.
    destruct (elems_inv _ _ _ _ He) as (_ & _ & arr & Harr & _).
    rewrite Heq, fresh_array in Harr. discriminate.
Qed.

(** Running a chain gives the same result in every store that extends the
    one it was built in. *)
Lemma Then_extends st st' p nm l ctx input w :
  Name p st = Some (nm, st) ->
  stages_of p st = Some (l, st) ->
  extends st st' ->
  exists r, Then p ctx input w st = Some (r, st)
            /\ Then p ctx input w st' = Some (r, st').
Proof.
  intros Hn Hs Hext. eexists. split.
  - apply (Then_total st p nm l); assumption.
  - apply (Then_total st' p nm l);
      eauto using Name_extends, stages_of_extends.
Qed.

(** The shape shared by the results of [Append], [Prepend] and [Clone]. *)
Lemma derived_chain st p nm l x n :
  Name p st = Some (nm, st) ->
  stages_of p st = Some (l, st) ->
  n = length x ->
  let p' := fresh (dom (chains st)) in
  let st' := {| arrays := <[fresh (dom (arrays st)) := x]> (arrays st);
                chains := <[p' := {| middlewares :=
                                      {| base := fresh (dom (arrays st));
                                         off := 0; len := n; cap := n |};
                                    name := nm |}]> (chains st) |} in
  p' <> p
  /\ stages_of p' st' = Some (x, st')
  /\ Name p' st' = Some (nm, st')
  /\ stages_of p st' = Some (l, st')
  /\ Name p st' = Some (nm, st')
  /\ (forall c c', chains st' !! p = Some c -> chains st' !! p' = Some c' ->
                   base (middlewares c') <> base (middlewares c))
  /\ unchanged st st'
  /\ (forall ctx input w,
        exists r, Then p ctx input w st = Some (r, st)
                  /\ Then p ctx input w st' = Some (r, st')).
Proof.
  intros Hn Hs Hlen p' st'.
  destruct (new_chain_store st nm x n Hlen) as (Hext & Hn' & Hs' & Hbase).
  destruct (live_chain_not_fresh st p l Hs) as (Hp & Ha).
  fold p' in Hp. fold p' st' in Hext, Hn', Hs', Hbase.
  split; [congruence|]. split; [exact Hs'|]. split; [exact Hn'|].
  split; [eauto using stages_of_extends|].
  split; [eauto using Name_extends|].
  split; [|split].
  - intros c c' Hc Hc'. rewrite (Hbase c' Hc').
    apply not_eq_sym, Ha.
    unfold st' in Hc; cbn [chains] in Hc.
    now rewrite lookup_insert_ne in Hc by congruence.
  - now apply extends_unchanged.
  - intros ctx input w. eauto using Then_extends.
Qed.

(** C5: on a live chain [p] with stage sequence [l], [Append p E] returns a
    new chain, at another address and over another array, whose stage
    sequence is [l ++ E], and [Prepend p E] one whose stage sequence is
    [E ++ l]; afterwards [p] still shows the sequence [l] and its name, and
    every run of [p] returns what it returned before. *)
Theorem Append_Prepend_nondestructive (st : Store) (p : nat) (nm : string)
    (l E : list MiddlewareFunc) :
  Name p st = Some (nm, st) ->
  stages_of p st = Some (l, st) ->
  (exists p' st',
      Append p E st = Some (p', st')
      /\ p' <> p
      /\ stages_of p' st' = Some (l ++ E, st')
      /\ stages_of p st' = Some (l, st')
      /\ Name p st' = Some (nm, st')
      /\ (forall c c', chains st' !! p = Some c -> chains st' !! p' = Some c' ->
                       base (middlewares c') <> base (middlewares c))
      /\ (forall ctx input w,
            exists r, Then p ctx input w st = Some (r, st)
                      /\ Then p ctx input w st' = Some (r, st')))
  /\ (exists p' st',
        Prepend p E st = Some (p', st')
        /\ p' <> p
        /\ stages_of p' st' = Some (E ++ l, st')
        /\ stages_of p st' = Some (l, st')
        /\ Name p st' = Some (nm, st')
        /\ (forall c c', chains st' !! p = Some c -> chains st' !! p' = Some c' ->
                         base (middlewares c') <> base (middlewares c))
        /\ (forall ctx input w,
              exists r, Then p ctx input w st = Some (r, st)
                        /\ Then p ctx input w st' = Some (r, st'))).
Proof.
  intros Hn Hs. split.
  - eexists _, _. split; [apply (Append_eval st p nm l E Hn Hs)|].
    destruct (derived_chain st p nm l (l ++ E) (length l + length E) Hn Hs)
      as (H1 & H2 & _ & H4 & H5 & H6 & _ & H8);
      [now rewrite length_app|].
    repeat (split; [assumption|]). exact H8.
  - eexists _, _. split; [apply (Prepend_eval st p nm l E Hn Hs)|].
    destruct (derived_chain st p nm l (E ++ l) (length E + length l) Hn Hs)
      as (H1 & H2 & _ & H4 & H5 & H6 & _ & H8);
      [now rewrite length_app|].
    repeat (split; [assumption|]). exact H8.
Qed.

Lemma Append_Prepend_nondestructive_witness :
  (exists p' st',
      Append 0 [Some (counting_stage "extra")] example_store = Some (p', st')
      /\ stages_of p' st'
         = Some (example_stages ++ [Some (counting_stage "extra")], st')
      /\ stages_of 0 st' = Some (example_stages, st'))
  /\ (exists p' st',
        Prepend 0 [Some (counting_stage "extra")] example_store = Some (p', st')
        /\ stages_of p' st'
           = Some ([Some (counting_stage "extra")] ++ example_stages, st')
        /\ stages_of 0 st' = Some (example_stages, st')).
Proof.
  assert (Hn : Name 0 example_store = Some ("api"%string, example_store))
    by (vm_compute; reflexivity).
  assert (Hs : stages_of 0 example_store = Some (example_stages, example_store))
    by (vm_compute; reflexivity).
  destruct (Append_Prepend_nondestructive example_store 0%nat "api"
              example_stages [Some (counting_stage "extra")] Hn Hs)
    as [(p1 & st1 & HA & _ & HA1 & HA2 & _) (p2 & st2 & HP & _ & HP1 & HP2 & _)].
  split; [exists p1, st1 | exists p2, st2]; auto.
Defined.

(** C10: on a live chain [p] named [nm], [Append], [Prepend] and [Clone]
    each return a chain whose [Name] is [nm]; and no operation of the
    package changes the name or the stage sequence of a chain that exists:
    the five operations that build a chain leave every existing chain as it
    was, and [Then], [Len] and [Name] return the store they were given. *)
Theorem chain_name_preserved (st : Store) (p : nat) (nm : string)
    (l E : list MiddlewareFunc) :
  Name p st = Some (nm, st) ->
  stages_of p st = Some (l, st) ->
  (exists p' st', Append p E st = Some (p', st')
                  /\ Name p' st' = Some (nm, st') /\ unchanged st st')
  /\ (exists p' st', Prepend p E st = Some (p', st')
                     /\ Name p' st' = Some (nm, st') /\ unchanged st st')
  /\ (exists p' st', Clone p st = Some (p', st')
                     /\ Name p' st' = Some (nm, st')
                     /\ stages_of p' st' = Some (l, st')
                     /\ unchanged st st')
  /\ (forall nm' mws,
        exists p' st', NewNamedChain nm' mws st = Some (p', st')
                       /\ Name p' st' = Some (nm', st') /\ unchanged st st')
  /\ (forall mws,
        exists p' st', NewChain mws st = Some (p', st') /\ unchanged st st')
  /\ (forall ctx input w, exists r, Then p ctx input w st = Some (r, st))
  /\ Len p st = Some (Z.of_nat (length l), st)
  /\ Name p st = Some (nm, st).
Proof.
  intros Hn Hs. repeat apply conj.
  - eexists _, _. split; [apply (Append_eval st p nm l E Hn Hs)|].
    destruct (derived_chain st p nm l (l ++ E) (length l + length E) Hn Hs)
      as (_ & _ & H3 & _ & _ & _ & H7 & _); [now rewrite length_app|].
    now split.
  - eexists _, _. split; [apply (Prepend_eval st p nm l E Hn Hs)|].
    destruct (derived_chain st p nm l (E ++ l) (length E + length l) Hn Hs)
      as (_ & _ & H3 & _ & _ & _ & H7 & _); [now rewrite length_app|].
    now split.
  - eexists _, _. split; [apply (Clone_eval st p nm l Hn Hs)|].
    destruct (derived_chain st p nm l l (length l) Hn Hs)
      as (_ & H2 & H3 & _ & _ & _ & H7 & _); [reflexivity|].
    split; [exact H3 | split; [exact H2 | exact H7]].
  - intros nm' mws.
    destruct (NewNamedChain_spec st nm' mws) as (p' & st' & H & Hext & _ & Hn' & _).
    exists p', st'. eauto using extends_unchanged.
  - intros mws.
    destruct (NewNamedChain_spec st EmptyString mws)
      as (p' & st' & H & Hext & _).
    exists p', st'. split; [exact H | now apply extends_unchanged].
  - intros ctx input w. eexists. apply (Then_total st p nm l); assumption.
  - destruct (stages_of_inv _ _ _ _ Hs) as (_ & c & Hc & He).
    destruct (elems_inv _ _ _ _ He) as (_ & Hlen & _).
    unfold Len, bind, load, ret. rewrite Hc. now rewrite Hlen.
  - exact Hn.
Qed.

Lemma chain_name_preserved_witness :
  (exists p' st',
      Append 0 [Some (counting_stage "extra")] example_store = Some (p', st')
      /\ Name p' st' = Some ("api"%string, st'))
  /\ (exists p' st',
        Prepend 0 [Some (counting_stage "extra")] example_store = Some (p', st')
        /\ Name p' st' = Some ("api"%string, st'))
  /\ (exists p' st',
        Clone 0 example_store = Some (p', st')
        /\ Name p' st' = Some ("api"%string, st')).
Proof.
  assert (Hn : Name 0 example_store = Some ("api"%string, example_store))
    by (vm_compute; reflexivity).
  assert (Hs : stages_of 0 example_store = Some (example_stages, example_store))
    by (vm_compute; reflexivity).
  destruct (chain_name_preserved example_store 0%nat "api"
              example_stages [Some (counting_stage "extra")] Hn Hs)
    as ((p1 & st1 & HA & HA1 & _) & (p2 & st2 & HP & HP1 & _)
        & (p3 & st3 & HC & HC1 & _) & _).
  split; [exists p1, st1 | split; [exists p2, st2 | exists p3, st3]]; auto.
Defined.

(* ===================================================================== *)
(** * Further properties of the code                                      *)
(* ===================================================================== *)

(** ** metadata.go *)

Lemma ctx_Value_not_set ctx key : ~ set_on ctx key -> ctx_Value ctx key = VNil.
Proof.
  intros H. rewrite ctx_Value_latest.
  now rewrite (proj2 (latest_None_iff ctx key) H).
Qed.

(** X1: a key that was never set on the context chain is reported missing
    by all three string-keyed getters, with the zero value of the result
    type: nil, the empty string, false. *)
Theorem metadata_missing_key (ctx : Context) (k : string) :
  ~ set_on ctx (KString k) ->
  GetMetadata ctx k = (VNil, false)
  /\ GetMetadataString ctx k = (EmptyString, false)
  /\ GetMetadataBool ctx k = (false, false).
Proof.
  intros H. unfold GetMetadata, GetMetadataString, GetMetadataBool.
  rewrite (ctx_Value_not_set _ _ H). repeat split.
Qed.

Lemma metadata_missing_key_witness :
  GetMetadata (SetRequestID (AddMetadata Background "a" (VInt 1)) "r") "b"
    = (VNil, false)
  /\ GetMetadataString (SetRequestID (AddMetadata Background "a" (VInt 1)) "r") "b"
     = (EmptyString, false)
  /\ GetMetadataBool (SetRequestID (AddMetadata Background "a" (VInt 1)) "r") "b"
     = (false, false).
Proof.
  apply (metadata_missing_key
           (SetRequestID (AddMetadata Background "a" (VInt 1)) "r") "b").
  simpl. intros [H|[H|[]]]; discriminate H.
Defined.

(** X2: what the typed getters return right after [AddMetadata ctx k v]
    depends on [v] alone: [GetMetadataString] gives the string and ok=true
    when [v] is a string and the empty string with ok=false for any other
    value, [GetMetadataBool] likewise for booleans.  A value of another
    type so hides an older value of the right type under the same key. *)
Theorem typed_getters_after_AddMetadata (ctx : Context) (k : string)
    (v : Value) (s : string) (b : bool) :
  GetMetadataString (AddMetadata ctx k v) k = assert_string v
  /\ GetMetadataBool (AddMetadata ctx k v) k = assert_bool v
  /\ GetMetadataString (AddMetadata ctx k (VString s)) k = (s, true)
  /\ GetMetadataBool (AddMetadata ctx k (VBool b)) k = (b, true)
  /\ GetMetadataString
       (AddMetadata (AddMetadata ctx k (VString s)) k (VBool b)) k
     = (EmptyString, false)
  /\ GetMetadataBool
       (AddMetadata (AddMetadata ctx k (VBool b)) k (VString s)) k
     = (false, false).
Proof.
  unfold GetMetadataString, GetMetadataBool, AddMetadata, ctx_Value.
  rewrite !decide_True by reflexivity. repeat split.
Qed.

(** X3: [AddMetadata] under one key changes the answer of no getter for
    another key. *)
Theorem AddMetadata_other_key (ctx : Context) (k k' : string) (v : Value) :
  k <> k' ->
  GetMetadata (AddMetadata ctx k v) k' = GetMetadata ctx k'
  /\ GetMetadataString (AddMetadata ctx k v) k' = GetMetadataString ctx k'
  /\ GetMetadataBool (AddMetadata ctx k v) k' = GetMetadataBool ctx k'.
Proof.
  intros Hne.
  unfold GetMetadata, GetMetadataString, GetMetadataBool, AddMetadata.
  cbn [ctx_Value]. rewrite !decide_False by congruence. repeat split.
Qed.

Lemma AddMetadata_other_key_witness :
  GetMetadata (AddMetadata (AddMetadata Background "b" (VInt 2)) "a" (VInt 1)) "b"
    = GetMetadata (AddMetadata Background "b" (VInt 2)) "b"
  /\ GetMetadataString
       (AddMetadata (AddMetadata Background "b" (VInt 2)) "a" (VInt 1)) "b"
     = GetMetadataString (AddMetadata Background "b" (VInt 2)) "b"
  /\ GetMetadataBool
       (AddMetadata (AddMetadata Background "b" (VInt 2)) "a" (VInt 1)) "b"
     = GetMetadataBool (AddMetadata Background "b" (VInt 2)) "b".
Proof.
  apply (AddMetadata_other_key (AddMetadata Background "b" (VInt 2))
           "a" "b" (VInt 1)).
  discriminate.
Defined.

(** X4: the typed identifiers round-trip and do not disturb each other:
    [GetUserID] after [SetUserID ctx u] gives [u] with ok=true (also for the
    empty string), [SetUserID] leaves [GetRequestID] unchanged and
    [SetRequestID] leaves [GetUserID] unchanged, and neither setter changes
    [GetChainName] or any string-keyed metadata. *)
Theorem typed_ids_roundtrip (ctx : Context) (u r k : string) :
  GetUserID (SetUserID ctx u) = (u, true)
  /\ GetRequestID (SetRequestID ctx r) = (r, true)
  /\ GetRequestID (SetUserID ctx u) = GetRequestID ctx
  /\ GetUserID (SetRequestID ctx r) = GetUserID ctx
  /\ GetChainName (SetUserID ctx u) = GetChainName ctx
  /\ GetChainName (SetRequestID ctx r) = GetChainName ctx
  /\ GetMetadata (SetUserID ctx u) k = GetMetadata ctx k.
Proof.
  unfold GetUserID, GetRequestID, GetChainName, GetMetadata, SetUserID,
    SetRequestID, userKey, requestKey, ChainNameKey.
  cbn [ctx_Value].
  rewrite !decide_True by reflexivity.
  rewrite !decide_False by discriminate.
  repeat split.
Qed.

(** ** chain.go *)

Lemma Len_of_stages st p l :
  stages_of p st = Some (l, st) ->
  Len p st = Some (Z.of_nat (length l), st).
Proof.
  intros Hs. destruct (stages_of_inv _ _ _ _ Hs) as (_ & c & Hc & He).
  destruct (elems_inv _ _ _ _ He) as (_ & Hlen & _).
  unfold Len, bind, load, ret. rewrite Hc. now rewrite Hlen.
Qed.

Lemma Name_of_live st p l :
  stages_of p st = Some (l, st) -> exists nm, Name p st = Some (nm, st).
Proof.
  intros Hs. destruct (stages_of_inv _ _ _ _ Hs) as (_ & c & Hc & _).
  exists (name c). unfold Name, bind, load, ret. now rewrite Hc.
Qed.

(** X5: [NewNamedChain name stages] succeeds in every store and returns a
    chain at an address not in use before, whose [Name] is [name], whose
    stage sequence is [stages] in the order given, and whose [Len] is their
    number; [NewChain stages] does the same with the empty name. *)
Theorem NewNamedChain_roundtrip (st : Store) (nm : string)
    (mws : list MiddlewareFunc) :
  (exists p st',
      NewNamedChain nm mws st = Some (p, st')
      /\ chains st !! p = None
      /\ Name p st' = Some (nm, st')
      /\ stages_of p st' = Some (mws, st')
      /\ Len p st' = Some (Z.of_nat (length mws), st'))
  /\ (exists p st',
        NewChain mws st = Some (p, st')
        /\ chains st !! p = None
        /\ Name p st' = Some (EmptyString, st')
        /\ stages_of p st' = Some (mws, st')
        /\ Len p st' = Some (Z.of_nat (length mws), st')).
Proof.
  split.
  - destruct (NewNamedChain_spec st nm mws)
      as (p & st' & H & _ & Hf & Hn & Hs).
    exists p, st'. eauto 10 using Len_of_stages.
  - destruct (NewNamedChain_spec st EmptyString mws)
      as (p & st' & H & _ & Hf & Hn & Hs).
    exists p, st'. eauto 10 using Len_of_stages.
Qed.

(** X6: [Clone] of a live chain returns a chain at another address, over
    another backing array, with the same name and stage sequence, and every
    run of the clone returns what the same run of the original returns. *)
Theorem Clone_runs_like_original (st : Store) (p : nat) (nm : string)
    (l : list MiddlewareFunc) :
  Name p st = Some (nm, st) ->
  stages_of p st = Some (l, st) ->
  exists p' st',
    Clone p st = Some (p', st')
    /\ p' <> p
    /\ Name p' st' = Some (nm, st')
    /\ stages_of p' st' = Some (l, st')
    /\ (forall c c', chains st' !! p = Some c -> chains st' !! p' = Some c' ->
                     base (middlewares c') <> base (middlewares c))
    /\ (forall ctx input w,
          exists r, Then p ctx input w st = Some (r, st)
                    /\ Then p' ctx input w st' = Some (r, st')).
Proof.
  intros Hn Hs. eexists _, _. split; [apply (Clone_eval st p nm l Hn Hs)|].
  destruct (derived_chain st p nm l l (length l) Hn Hs)
    as (H1 & H2 & H3 & _ & _ & H6 & _ & _); [reflexivity|].
  repeat (split; [assumption|]).
  intros ctx input w. eexists. split.
  - apply (Then_total st p nm l); assumption.
  - apply (Then_total _ _ nm l); assumption.
Qed.

Lemma Clone_runs_like_original_witness :
  exists p' st',
    Clone 0 example_store = Some (p', st')
    /\ p' <> 0%nat
    /\ stages_of p' st' = Some (example_stages, st').
Proof.
  assert (Hn : Name 0 example_store = Some ("api"%string, example_store))
    by (vm_compute; reflexivity).
  assert (Hs : stages_of 0 example_store = Some (example_stages, example_store))
    by (vm_compute; reflexivity).
  destruct (Clone_runs_like_original example_store 0%nat "api" example_stages
              Hn Hs) as (p' & st' & HC & Hne & _ & Hst & _).
  exists p', st'; auto.
Defined.

(** X7: extensions compose.  Appending [E1] and then [E2] to a live chain
    with stages [l] gives a chain with stages [l ++ E1 ++ E2], and
    prepending [F] to the chain with [E1] appended gives [F ++ l ++ E1]; the
    name is kept, [Len] is the sum of the lengths, and after both calls the
    original chain and the intermediate one still show their own stages. *)
Theorem extensions_compose (st : Store) (p : nat) (nm : string)
    (l E1 E2 F : list MiddlewareFunc) :
  Name p st = Some (nm, st) ->
  stages_of p st = Some (l, st) ->
  exists p1 st1,
    Append p E1 st = Some (p1, st1)
    /\ (exists p2 st2,
          Append p1 E2 st1 = Some (p2, st2)
          /\ stages_of p2 st2 = Some (l ++ E1 ++ E2, st2)
          /\ Name p2 st2 = Some (nm, st2)
          /\ Len p2 st2
             = Some (Z.of_nat (length l + length E1 + length E2), st2)
          /\ stages_of p1 st2 = Some (l ++ E1, st2)
          /\ stages_of p st2 = Some (l, st2))
    /\ (exists p3 st3,
          Prepend p1 F st1 = Some (p3, st3)
          /\ stages_of p3 st3 = Some (F ++ l ++ E1, st3)
          /\ Name p3 st3 = Some (nm, st3)
          /\ stages_of p st3 = Some (l, st3)).
Proof.
  intros Hn Hs. eexists _, _. split; [apply (Append_eval st p nm l E1 Hn Hs)|].
  destruct (derived_chain st p nm l (l ++ E1) (length l + length E1) Hn Hs)
    as (_ & Hs1 & Hn1 & Hs0 & Hn0 & _ & _ & _); [rewrite !length_app; lia|].
  split.
  - eexists _, _. split; [apply (Append_eval _ _ nm (l ++ E1) E2 Hn1 Hs1)|].
    destruct (derived_chain _ _ nm (l ++ E1) ((l ++ E1) ++ E2)
                (length (l ++ E1) + length E2) Hn1 Hs1)
      as (_ & Hs2 & Hn2 & Hs1' & _ & _ & Hun & _); [rewrite !length_app; lia|].
    rewrite (app_assoc l E1 E2).
    split; [exact Hs2|]. split; [exact Hn2|]. split.
    + rewrite (Len_of_stages _ _ _ Hs2). rewrite !length_app.
      first [reflexivity | do 2 f_equal; lia].
    + split; [exact Hs1'|]. exact (proj2 (Hun p nm l Hn0 Hs0)).
  - eexists _, _. split; [apply (Prepend_eval _ _ nm (l ++ E1) F Hn1 Hs1)|].
    destruct (derived_chain _ _ nm (l ++ E1) (F ++ l ++ E1)
                (length F + length (l ++ E1)) Hn1 Hs1)
      as (_ & Hs3 & Hn3 & _ & _ & _ & Hun & _); [rewrite !length_app; lia|].
    split; [exact Hs3|]. split; [exact Hn3|].
    exact (proj2 (Hun p nm l Hn0 Hs0)).
Qed.

Lemma extensions_compose_witness :
  exists p1 st1 p2 st2,
    Append 0 [Some (counting_stage "x")] example_store = Some (p1, st1)
    /\ Append p1 [Some (counting_stage "y")] st1 = Some (p2, st2)
    /\ stages_of p2 st2
       = Some (example_stages ++ [Some (counting_stage "x")]
                 ++ [Some (counting_stage "y")], st2).
Proof.
  assert (Hn : Name 0 example_store = Some ("api"%string, example_store))
    by (vm_compute; reflexivity).
  assert (Hs : stages_of 0 example_store = Some (example_stages, example_store))
    by (vm_compute; reflexivity).
  destruct (extensions_compose example_store 0%nat "api" example_stages
              [Some (counting_stage "x")] [Some (counting_stage "y")] []
              Hn Hs)
    as (p1 & st1 & H1 & (p2 & st2 & H2 & H3 & _) & _).
  exists p1, st1, p2, st2; auto.
Defined.

Lemma Then_run_nil_context nm l input w :
  l <> [] -> Then_run nm l None input w = (Panic nil_parent, w).
Proof.
  intros Hne. unfold Then_run. destruct (decide (nm <> EmptyString)).
  - reflexivity.
  - destruct l; [congruence | reflexivity].
Qed.

(** X8: a chain with at least one stage panics on a nil context, named or
    not: [Then] panics with the message of [context.WithValue] for a nil
    parent before any stage is called, and the world is left as it was. *)
Theorem Then_nil_context_panics (st : Store) (p : nat)
    (l : list MiddlewareFunc) (input : Value) (w : World) :
  stages_of p st = Some (l, st) ->
  l <> [] ->
  Then p None input w st = Some ((Panic nil_parent, w), st).
Proof.
  intros Hs Hne. destruct (Name_of_live _ _ _ Hs) as [nm Hn].
  rewrite (Then_eval st p nm l) by assumption.
  now rewrite Then_run_nil_context.
Qed.

Lemma Then_nil_context_panics_witness :
  Then 0 None (VString "payload") world0 example_store
  = Some ((Panic (VString "cannot create context from nil parent"), world0),
          example_store).
Proof.
  apply (Then_nil_context_panics example_store 0%nat example_stages).
  - vm_compute; reflexivity.
  - discriminate.
Defined.

(** X9: [Then] recovers nothing.  When the stages before position [k]
    return without error and the stage at position [k] panics, [Then]
    panics with the same value; the world is the one the panicking stage
    left, and no later stage is called. *)
Theorem Then_panic_propagates (st : Store) (p : nat) (nm : string)
    (pre post : list MiddlewareFunc) (f : Stage)
    (ctx : option Context) (input : Value) (w : World)
    (ctx1 : Context) (out1 : Value) (w1 : World) (v : Value) (w2 : World) :
  Name p st = Some (nm, st) ->
  stages_of p st = Some (pre ++ Some f :: post, st) ->
  Then_run nm pre ctx input w = (Return (Some ctx1) out1 None, w1) ->
  f (WithValue ctx1 MiddlewareIndexKey (VInt (Z.of_nat (length pre)))) out1 w1
    = (Panic v, w2) ->
  Then p ctx input w st = Some ((Panic v, w2), st)
  /\ (forall post',
        Then_run nm (pre ++ Some f :: post') ctx input w = (Panic v, w2)).
Proof.
  intros Hn Hs Hpre Hf. split.
  - rewrite (Then_eval st p nm (pre ++ Some f :: post)); auto.
    + now rewrite (Then_run_panic _ _ _ _ _ _ _ _ _ _ _ _ Hpre Hf).
    + now destruct pre.
  - intros post'. eapply Then_run_panic; eauto.
Qed.

Lemma Then_panic_propagates_witness :
  Then 0 (Some Background) (VString "payload") world0 guarded_store
  = Some ((Panic (VString "kaboom"), world0), guarded_store).
Proof.
  apply (Then_panic_propagates guarded_store 0%nat EmptyString
           [Some (Recovery None)] [] (panicking_stage "kaboom")
           (Some Background) (VString "payload") world0
           (WithValue Background MiddlewareIndexKey (VInt 0))
           (VString "payload") world0 (VString "kaboom") world0).
  - vm_compute; reflexivity.
  - vm_compute; reflexivity.
  - vm_compute; reflexivity.
  - vm_compute; reflexivity.
Defined.

(** X10: a nil function in the stage sequence is kept by the constructors
    and is fatal once the loop reaches it: when the stages before it return
    without error, [Then] panics with the run time's nil dereference error,
    in the world those stages left. *)
Theorem Then_nil_stage_panics (st : Store) (p : nat) (nm : string)
    (pre post : list MiddlewareFunc)
    (ctx : option Context) (input : Value) (w : World)
    (ctx1 : Context) (out1 : Value) (w1 : World) :
  Name p st = Some (nm, st) ->
  stages_of p st = Some (pre ++ None :: post, st) ->
  Then_run nm pre ctx input w = (Return (Some ctx1) out1 None, w1) ->
  Then p ctx input w st = Some ((Panic nil_dereference, w1), st).
Proof.
  intros Hn Hs Hpre.
  rewrite (Then_eval st p nm (pre ++ None :: post)); auto.
  - now rewrite Then_run_app, Hpre.
  - now destruct pre.
Qed.

Lemma Then_nil_stage_panics_witness :
  exists p st,
    NewChain [Some (counting_stage "before"); None] store0 = Some (p, st)
    /\ Then p (Some Background) (VInt 1) world0 st
       = Some ((Panic nil_dereference, set_cells {["before" := 1]} world0), st).
Proof.
  destruct (NewNamedChain_spec store0 EmptyString
              [Some (counting_stage "before"); None])
    as (p & st & HN & _ & _ & Hn & Hs).
  exists p, st. split; [exact HN|].
  apply (Then_nil_stage_panics st p EmptyString
           [Some (counting_stage "before")] [] (Some Background) (VInt 1)
           world0 (WithValue Background MiddlewareIndexKey (VInt 0)) (VInt 1)
           (set_cells {["before" := 1]} world0) Hn Hs).
  vm_compute; reflexivity.
Defined.

Lemma Then_loop_error_shape mws :
  forall i ctx out w c o e w',
    Then_loop mws i ctx out w = (Return c o (Some e), w') ->
    o = VNil
    /\ exists (k : nat) e0,
         (i <= k < i + length mws)%nat
         /\ e = Errorf_middleware_failed (Z.of_nat k) e0.
Proof.
  induction mws as [|mw rest IH]; intros i ctx out w c o e w' H; simpl in H.
  - discriminate.
  - destruct ctx as [c0|]; [|discriminate].
    destruct mw as [f|]; [|discriminate].
    destruct (f _ out w) as [[c2 o2 [err|]|v] w2].
    + injection H as <- <- <- <-. split; [reflexivity|].
      exists i, err. split; [simpl; lia | reflexivity].
    + destruct (IH _ _ _ _ _ _ _ _ H) as (-> & k & e0 & Hk & ->).
      split; [reflexivity|]. exists k, e0. split; [simpl; lia | reflexivity].
    + discriminate.
Qed.

(** X11: whenever [Then] returns an error, the output it returns is nil and
    the error is one built by [Then] itself: it wraps the error of a stage
    and its message starts with "middleware k failed: " for a position [k]
    inside the chain. *)
Theorem Then_error_shape (st st' : Store) (p : nat) (l : list MiddlewareFunc)
    (ctx c : option Context) (input o : Value) (e : GoError) (w w' : World) :
  stages_of p st = Some (l, st) ->
  Then p ctx input w st = Some ((Return c o (Some e), w'), st') ->
  o = VNil
  /\ exists (k : nat) e0,
       (k < length l)%nat
       /\ errors_Unwrap e = Some e0
       /\ err_Error e
          = "middleware " +:+ pretty (Z.of_nat k) +:+ " failed: "
              +:+ err_Error e0.
Proof.
  intros Hs HT. destruct (Name_of_live _ _ _ Hs) as [nm Hn].
  rewrite (Then_total st p nm l _ _ _ Hn Hs) in HT.
  destruct l as [|mw l]; [discriminate|].
  injection HT as HT _. unfold Then_run in HT.
  assert (exists c0, Then_loop (mw :: l) 0 c0 input w
                     = (Return c o (Some e), w')) as [c0 Hloop].
  { destruct (decide (nm <> EmptyString)); [|eauto].
    destruct ctx; [eauto | discriminate]. }
  destruct (Then_loop_error_shape _ _ _ _ _ _ _ _ _ Hloop)
    as (-> & k & e0 & Hk & ->).
  split; [reflexivity|]. exists k, e0. split; [lia|]. split; reflexivity.
Qed.

Lemma Then_error_shape_witness :
  VNil = VNil
  /\ exists (k : nat) e0,
       (k < length example_stages)%nat
       /\ errors_Unwrap
            (WrapError "middleware 1 failed: boom" (ErrorString "boom"))
          = Some e0
       /\ err_Error (WrapError "middleware 1 failed: boom" (ErrorString "boom"))
          = "middleware " +:+ pretty (Z.of_nat k) +:+ " failed: "
              +:+ err_Error e0.
Proof.
  apply (Then_error_shape example_store example_store 0%nat example_stages
           (Some Background)
           (Some (AddMetadata
                    (WithValue
                       (WithValue
                          (WithValue Background ChainNameKey (VString "api"))
                          MiddlewareIndexKey (VInt 0))
                       MiddlewareIndexKey (VInt 1))
                    "failed" (VBool true)))
           (VString "payload") VNil
           (WrapError "middleware 1 failed: boom" (ErrorString "boom"))
           world0 (set_cells {["before" := 1]} world0)).
  - vm_compute; reflexivity.
  - vm_compute; reflexivity.
Defined.

(** X12: a run of [Append p E] is the run of [p] carried on.  For a chain
    [p] with at least one stage: when the run of [p] ends in an error or a
    panic, the run of the extended chain ends the same way and in the same
    world, and no added stage is called; when it returns without error, the
    extended chain goes on from the context, output and world it returned,
    calling the added stages with the indices that follow. *)
Theorem Then_after_Append (st : Store) (p : nat) (nm : string)
    (l E : list MiddlewareFunc) (ctx : option Context) (input : Value)
    (w : World) (r : Outcome) (w' : World) :
  Name p st = Some (nm, st) ->
  stages_of p st = Some (l, st) ->
  l <> [] ->
  Then p ctx input w st = Some ((r, w'), st) ->
  exists p' st',
    Append p E st = Some (p', st')
    /\ Then p' ctx input w st'
       = Some (match r with
               | Return c o None => Then_loop E (length l) c o w'
               | _ => (r, w')
               end, st').
Proof.
  intros Hn Hs Hne HT.
  rewrite (Then_eval st p nm l ctx input w Hn Hs Hne) in HT.
  injection HT as HT.
  eexists _, _. split; [apply (Append_eval st p nm l E Hn Hs)|].
  destruct (derived_chain st p nm l (l ++ E) (length l + length E) Hn Hs)
    as (_ & Hs' & Hn' & _); [now rewrite length_app|].
  rewrite (Then_eval _ _ nm (l ++ E) ctx input w Hn' Hs')
    by (destruct l; [congruence | discriminate]).
  rewrite Then_run_app, HT.
  now destruct r as [c o [e|]|v].
Qed.

Lemma Then_after_Append_witness :
  exists p' st',
    Append 0 [Some (counting_stage "extra")] example_store = Some (p', st')
    /\ Then p' (Some Background) (VString "payload") world0 st'
       = Some ((Return
                  (Some (AddMetadata
                           (WithValue
                              (WithValue
                                 (WithValue Background ChainNameKey
                                    (VString "api"))
                                 MiddlewareIndexKey (VInt 0))
                              MiddlewareIndexKey (VInt 1))
                           "failed" (VBool true)))
                  VNil
                  (Some (WrapError "middleware 1 failed: boom"
                           (ErrorString "boom"))),
                set_cells {["before" := 1]} world0), st').
Proof.
  assert (Hn : Name 0 example_store = Some ("api"%string, example_store))
    by (vm_compute; reflexivity).
  assert (Hs : stages_of 0 example_store = Some (example_stages, example_store))
    by (vm_compute; reflexivity).
  assert (Hne : example_stages <> []) by discriminate.
  assert (HT : Then 0 (Some Background) (VString "payload") world0 example_store
               = Some ((Return
                          (Some (AddMetadata
                                   (WithValue
                                      (WithValue
                                         (WithValue Background ChainNameKey
                                            (VString "api"))
                                         MiddlewareIndexKey (VInt 0))
                                      MiddlewareIndexKey (VInt 1))
                                   "failed" (VBool true)))
                          VNil
                          (Some (WrapError "middleware 1 failed: boom"
                                   (ErrorString "boom"))),
                        set_cells {["before" := 1]} world0), example_store))
    by (vm_compute; reflexivity).
  exact (Then_after_Append example_store 0%nat "api" example_stages
           [Some (counting_stage "extra")] (Some Background)
           (VString "payload") world0 _ _ Hn Hs Hne HT).
Defined.

(** X13: the stage at position [k] is called with a context on which
    [MiddlewareIndexKey] reads [k], whatever the earlier stages did to the
    context; that tag changes no string-keyed metadata, no request or user
    identifier and no chain name the stage can read. *)
Theorem Then_stage_sees_index (nm : string) (pre : list MiddlewareFunc)
    (obs : Context -> Value) (ctx : option Context) (input : Value)
    (w : World) (ctx1 : Context) (out1 : Value) (w1 : World) :
  Then_run nm pre ctx input w = (Return (Some ctx1) out1 None, w1) ->
  exists c,
    Then_run nm (pre ++ [Some (probe_stage obs)]) ctx input w
      = (Return (Some c) (obs c) None, w1)
    /\ ctx_Value c MiddlewareIndexKey = VInt (Z.of_nat (length pre))
    /\ (forall k, GetMetadata c k = GetMetadata ctx1 k)
    /\ GetRequestID c = GetRequestID ctx1
    /\ GetUserID c = GetUserID ctx1
    /\ GetChainName c = GetChainName ctx1.
Proof.
  intros Hpre.
  exists (WithValue ctx1 MiddlewareIndexKey (VInt (Z.of_nat (length pre)))).
  split; [now rewrite Then_run_app, Hpre|].
  repeat split.
Qed.

Lemma Then_stage_sees_index_witness :
  exists c,
    Then_run "api"
      ([Some (counting_stage "before")]
         ++ [Some (probe_stage (fun c => ctx_Value c MiddlewareIndexKey))])
      (Some Background) (VString "payload") world0
    = (Return (Some c) (ctx_Value c MiddlewareIndexKey) None,
       set_cells {["before" := 1]} world0)
    /\ ctx_Value c MiddlewareIndexKey = VInt 1.
Proof.
  destruct (Then_stage_sees_index "api" [Some (counting_stage "before")]
              (fun c => ctx_Value c MiddlewareIndexKey) (Some Background)
              (VString "payload") world0
              (WithValue (WithValue Background ChainNameKey (VString "api"))
                 MiddlewareIndexKey (VInt 0))
              (VString "payload") (set_cells {["before" := 1]} world0)
              eq_refl) as (c & H1 & H2 & _).
  exists c. split; [exact H1 | exact H2].
Defined.

(** X14: the first stage of a named chain reads the chain's name with
    [GetChainName], also when the caller's context carried another name;
    in an unnamed chain it reads what the caller's context carried.  The
    two tags [Then] puts on the context change no string-keyed metadata and
    no request or user identifier. *)
Theorem Then_chain_name_tag (nm : string) (obs : Context -> Value)
    (ctx : Context) (input : Value) (w : World) :
  exists c,
    Then_run nm [Some (probe_stage obs)] (Some ctx) input w
      = (Return (Some c) (obs c) None, w)
    /\ GetChainName c
       = (if decide (nm <> EmptyString) then (nm, true) else GetChainName ctx)
    /\ ctx_Value c MiddlewareIndexKey = VInt 0
    /\ (forall k, GetMetadata c k = GetMetadata ctx k)
    /\ GetRequestID c = GetRequestID ctx
    /\ GetUserID c = GetUserID ctx.
Proof.
  unfold Then_run. destruct (decide (nm <> EmptyString)).
  - eexists. split; [reflexivity|]. repeat split.
  - eexists. split; [reflexivity|]. repeat split.
Qed.

(** ** bultin.go *)

(** X15: [Validation] at position [k] of a chain, reached with output
    [out1].  When the validator rejects [out1] with [e], [Then] returns a
    nil output and an error whose message is
    "middleware k failed: validation failed: " followed by the message of
    [e], and from which [e] is reached by unwrapping twice; the context is
    the one the stage was called with, without a "validated" entry added.
    When the validator accepts, the run goes on with [out1] unchanged and a
    context on which "validated" reads true.  The validator's verdict never
    changes the world. *)
Theorem Validation_in_chain (nm : string) (pre : list MiddlewareFunc)
    (validator : Value -> option GoError)
    (ctx : option Context) (input : Value) (w : World)
    (ctx1 : Context) (out1 : Value) (w1 : World) :
  Then_run nm pre ctx input w = (Return (Some ctx1) out1 None, w1) ->
  let c := WithValue ctx1 MiddlewareIndexKey (VInt (Z.of_nat (length pre))) in
  match validator out1 with
  | Some e =>
      exists E,
        (forall post,
           Then_run nm (pre ++ Some (Validation validator) :: post) ctx input w
           = (Return (Some c) VNil (Some E), w1))
        /\ err_Error E
           = "middleware " +:+ pretty (Z.of_nat (length pre))
               +:+ " failed: validation failed: " +:+ err_Error e
        /\ (errors_Unwrap E ≫= errors_Unwrap) = Some e
  | None =>
      Then_run nm (pre ++ [Some (Validation validator)]) ctx input w
        = (Return (Some (AddMetadata c "validated" (VBool true))) out1 None, w1)
      /\ GetMetadataBool (AddMetadata c "validated" (VBool true)) "validated"
         = (true, true)
  end.
Proof.
  intros Hpre c. destruct (validator out1) as [e|] eqn:Hv.
  - eexists. split; [|split].
    + intros post. rewrite Then_run_app, Hpre. cbn [Then_loop].
      unfold Validation. rewrite Hv. reflexivity.
    + unfold Errorf_middleware_failed, Errorf_validation_failed.
      cbn [err_Error]. do 2 f_equal.
    + reflexivity.
  - split; [|reflexivity].
    rewrite Then_run_app, Hpre. cbn [Then_loop].
    unfold Validation. now rewrite Hv.
Qed.

Lemma Validation_in_chain_witness :
  exists E,
    (forall post,
       Then_run "api"
         ([Some (counting_stage "before")]
            ++ Some (Validation
                       (fun v => if not_nil v then None
                                 else Some (ErrorString "input cannot be nil")))
               :: post)
         (Some Background) VNil world0
       = (Return
            (Some (WithValue
                     (WithValue
                        (WithValue Background ChainNameKey (VString "api"))
                        MiddlewareIndexKey (VInt 0))
                     MiddlewareIndexKey (VInt 1)))
            VNil (Some E), set_cells {["before" := 1]} world0))
    /\ err_Error E
       = "middleware 1 failed: validation failed: input cannot be nil"%string.
Proof.
  destruct (Validation_in_chain "api" [Some (counting_stage "before")]
              (fun v => if not_nil v then None
                        else Some (ErrorString "input cannot be nil"))
              (Some Background) VNil world0
              (WithValue (WithValue Background ChainNameKey (VString "api"))
                 MiddlewareIndexKey (VInt 0))
              VNil (set_cells {["before" := 1]} world0) eq_refl)
    as (E & H1 & H2 & _).
  exists E. split; [exact H1 | exact H2].
Defined.

(** X16: [Conditional].  When the condition is false, the wrapped
    middleware plays no part: whatever it is (nil included), the stage
    returns the input unchanged with no error, leaves the world as it is,
    and returns a context on which "conditional_skipped" reads true and
    every other string key, the request identifier and the chain name read
    as before.  When the condition is true, the stage is the wrapped
    middleware, and panics if that is the nil function. *)
Theorem Conditional_skip_or_delegate (condition : Context -> Value -> bool)
    (middleware : MiddlewareFunc) (f : Stage)
    (ctx : Context) (input : Value) (w : World) :
  if condition ctx input
  then Conditional condition (Some f) ctx input w = f ctx input w
       /\ Conditional condition None ctx input w = (Panic nil_dereference, w)
  else exists c,
         Conditional condition middleware ctx input w
           = (Return (Some c) input None, w)
         /\ GetMetadataBool c "conditional_skipped" = (true, true)
         /\ (forall k,
               GetMetadata c k
               = if decide (k = "conditional_skipped"%string)
                 then (VBool true, true) else GetMetadata ctx k)
         /\ GetRequestID c = GetRequestID ctx
         /\ GetChainName c = GetChainName ctx.
Proof.
  unfold Conditional. destruct (condition ctx input); simpl.
  - split; reflexivity.
  - eexists. split; [reflexivity|]. split; [reflexivity|].
    split; [|split; reflexivity].
    intros k.
    unfold GetMetadata, AddMetadata. cbn [ctx_Value].
    destruct (decide (k = "conditional_skipped"%string)) as [->|Hne].
    + now rewrite decide_True by reflexivity.
    + now rewrite decide_False by congruence.
Qed.

(** *** RateLimit: what every call keeps *)

Lemma RateLimit_func_keeps_bucket_ok b bk ctx input w :
  buckets w !! b = Some bk ->
  bucket_ok bk ->
  exists bk',
    buckets (RateLimit_func b ctx input w).2 !! b = Some bk'
    /\ bucket_ok bk'
    /\ capacity bk' = capacity bk
    /\ refillRate bk' = refillRate bk.
Proof.
  intros Hb [Htok Hcap]. unfold RateLimit_func. rewrite Hb. cbv zeta.
  destruct (decide (refillRate bk <= _)) as [Hrefill|Hin];
    cbn [tokens capacity refillRate lastRefill].
  - destruct (decide (capacity bk <= 0)) as [Hz|Hpos]; cbn [snd];
      rewrite with_bucket_lookup; eexists; (split; [reflexivity|]);
      unfold bucket_ok; cbn [tokens capacity refillRate lastRefill].
    + repeat split; lia.
    + rewrite int_wrap_in_range by (unfold minInt, maxInt in *; lia).
      repeat split; lia.
  - destruct (decide (tokens bk <= 0)) as [Hz|Hpos]; cbn [snd];
      rewrite with_bucket_lookup; eexists; (split; [reflexivity|]);
      unfold bucket_ok; cbn [tokens capacity refillRate lastRefill].
    + repeat split; lia.
    + rewrite int_wrap_in_range by (unfold minInt, maxInt in *; lia).
      repeat split; lia.
Qed.

Lemma invoke_seq_keeps_bucket_ok b calls :
  forall w bk,
    buckets w !! b = Some bk ->
    bucket_ok bk ->
    exists bk',
      buckets (invoke_seq (RateLimit_func b) calls w).2 !! b = Some bk'
      /\ bucket_ok bk'
      /\ capacity bk' = capacity bk
      /\ refillRate bk' = refillRate bk.
Proof.
  induction calls as [|[[t ctx] x] rest IH]; intros w bk Hb Hok.
  - exists bk. simpl. auto.
  - cbn [invoke_seq].
    destruct (RateLimit_func_keeps_bucket_ok b bk ctx x (set_clock t w) Hb Hok)
      as (bk1 & Hb1 & Hok1 & Hc1 & Hr1).
    destruct (RateLimit_func b ctx x (set_clock t w)) as [r w1].
    cbn [snd] in Hb1.
    destruct (IH w1 bk1 Hb1 Hok1) as (bk2 & Hb2 & Hok2 & Hc2 & Hr2).
    destruct (invoke_seq (RateLimit_func b) rest w1) as [rs w2].
    exists bk2. cbn [snd] in *.
    split; [exact Hb2|]. split; [exact Hok2|]. split; congruence.
Qed.

(** X17: the bucket of a limiter built with a capacity [C >= 0] keeps its
    shape for ever: after any number of calls, made at any times with any
    arguments, the token count is between 0 and [C], and the capacity and
    the refill interval are the ones the limiter was built with. *)
Theorem RateLimit_bucket_invariant (C D : Z) (w0 : World)
    (calls : list (Z * Context * Value)) :
  0 <= C <= maxInt ->
  exists bk,
    buckets (invoke_seq (RateLimit C D w0).1.2 calls (RateLimit C D w0).2).2
      !! (RateLimit C D w0).1.1 = Some bk
    /\ 0 <= tokens bk <= C
    /\ capacity bk = C
    /\ refillRate bk = D.
Proof.
  intros HC. rewrite RateLimit_eval. cbn [fst snd].
  destruct (invoke_seq_keeps_bucket_ok (fresh (dom (buckets w0))) calls
              (with_bucket (fresh (dom (buckets w0)))
                 {| tokens := C; capacity := C; refillRate := D;
                    lastRefill := clock w0 |} w0)
              {| tokens := C; capacity := C; refillRate := D;
                 lastRefill := clock w0 |})
    as (bk & Hb & [Htok _] & Hc & Hr).
  - apply with_bucket_lookup.
  - unfold bucket_ok; simpl; lia.
  - exists bk. simpl in Hc, Hr. rewrite Hc in Htok. auto.
Qed.

Lemma RateLimit_bucket_invariant_witness :
  exists bk,
    buckets (invoke_seq (RateLimit 2 1000 world0).1.2
               [(10, Background, VInt 1); (5000, Background, VInt 2);
                (5001, Background, VInt 3); (5002, Background, VInt 4)]
               (RateLimit 2 1000 world0).2).2
      !! (RateLimit 2 1000 world0).1.1 = Some bk
    /\ 0 <= tokens bk <= 2
    /\ capacity bk = 2
    /\ refillRate bk = 1000.
Proof.
  apply (RateLimit_bucket_invariant 2 1000 world0).
  unfold maxInt; lia.
Defined.

(** *** RateLimit: one window *)

Lemma invoke_seq_window b C D t0 calls :
  forall (n : Z) (w : World),
    buckets w !! b = Some {| tokens := n; capacity := C; refillRate := D;
                             lastRefill := t0 |} ->
    0 <= n <= maxInt ->
    Forall (fun c => Time_Sub c.1.1 t0 < D) calls ->
    (forall (i : nat) t ctx x,
        calls !! i = Some (t, ctx, x) ->
        (invoke_seq (RateLimit_func b) calls w).1 !! i
        = Some (if decide (Z.of_nat i < n)
                then limiter_pass ctx x (n - 1 - Z.of_nat i)
                else limiter_reject ctx))
    /\ length (List.filter succeeded (invoke_seq (RateLimit_func b) calls w).1)
       = Nat.min (length calls) (Z.to_nat n).
Proof.
  induction calls as [|[[t ctx] x] rest IH]; intros n w Hb Hn Hall.
  - simpl. split; [intros i ? ? ? H; discriminate H | reflexivity].
  - apply Forall_cons in Hall as [Ht Hrest]. simpl in Ht.
    cbn [invoke_seq].
    destruct (decide (0 < n)) as [Hpos|Hzero].
    + rewrite (RateLimit_func_consume b _ ctx x (set_clock t w) Hb)
        by (simpl; lia).
      cbn [tokens capacity refillRate lastRefill].
      destruct (IH (n - 1) _ (with_bucket_lookup b _ (set_clock t w)))
        as (Hres & Hcount); [lia | exact Hrest |].
      destruct (invoke_seq (RateLimit_func b) rest _) as [rs w2].
      cbn [fst] in *. split.
      * intros [|i] t' ctx' x' Hi; simpl in Hi |- *.
        -- injection Hi as <- <- <-. rewrite decide_True by lia.
           unfold limiter_pass. do 5 f_equal. lia.
        -- rewrite (Hres i t' ctx' x' Hi).
           destruct (decide (Z.of_nat i < n - 1));
             [rewrite decide_True by lia | rewrite decide_False by lia];
             [|reflexivity].
           unfold limiter_pass. do 5 f_equal. lia.
      * unfold limiter_pass. cbn [List.filter succeeded length].
        rewrite Hcount.
        replace (Z.to_nat n) with (S (Z.to_nat (n - 1))) by lia.
        reflexivity.
    + assert (n = 0) as -> by lia.
      rewrite (RateLimit_func_exhausted b _ ctx x (set_clock t w) Hb)
        by (simpl; lia).
      destruct (IH 0 _ (with_bucket_lookup b _ (set_clock t w)))
        as (Hres & Hcount); [lia | exact Hrest |].
      destruct (invoke_seq (RateLimit_func b) rest _) as [rs w2].
      cbn [fst] in *. split.
      * intros [|i] t' ctx' x' Hi; simpl in Hi |- *.
        -- injection Hi as <- <- <-. reflexivity.
        -- rewrite (Hres i t' ctx' x' Hi).
           destruct (decide (Z.of_nat i < 0)); [lia|].
           first [reflexivity | now rewrite decide_False by lia].
      * unfold limiter_reject. cbn [List.filter succeeded length].
        rewrite Hcount. change (Z.to_nat 0) with 0%nat.
        now rewrite !Nat.min_0_r.
Qed.

(** X18: a window is never overdrawn.  For a limiter built with capacity
    [C >= 0], among any number of calls made before the interval has
    elapsed, the calls at positions below [C] pass, reporting
    [C - 1 - i] tokens left, and every later call is rejected with the
    context it was given; so exactly [min(number of calls, C)] calls
    pass. *)
Theorem RateLimit_window (C D : Z) (w0 : World)
    (calls : list (Z * Context * Value)) :
  0 <= C <= maxInt ->
  Forall (fun c => Time_Sub c.1.1 (clock w0) < D) calls ->
  (forall (i : nat) t ctx x,
      calls !! i = Some (t, ctx, x) ->
      (invoke_seq (RateLimit C D w0).1.2 calls (RateLimit C D w0).2).1 !! i
      = Some (if decide (Z.of_nat i < C)
              then limiter_pass ctx x (C - 1 - Z.of_nat i)
              else limiter_reject ctx))
  /\ length (List.filter succeeded
               (invoke_seq (RateLimit C D w0).1.2 calls
                  (RateLimit C D w0).2).1)
     = Nat.min (length calls) (Z.to_nat C).
Proof.
  intros HC Hall. rewrite RateLimit_eval. cbn [fst snd].
  apply (invoke_seq_window _ C D (clock w0)); auto.
  apply with_bucket_lookup.
Qed.

Lemma RateLimit_window_witness :
  length (List.filter succeeded
            (invoke_seq (RateLimit 2 1000 world0).1.2
               [(10, Background, VInt 1); (20, Background, VInt 2);
                (30, Background, VInt 3); (40, Background, VInt 4)]
               (RateLimit 2 1000 world0).2).1)
  = Nat.min 4 (Z.to_nat 2).
Proof.
  assert (H1 : 0 <= 2 <= maxInt) by (unfold maxInt; lia).
  assert (H2 : Forall (fun c : Z * Context * Value =>
                         Time_Sub c.1.1 (clock world0) < 1000)
                 [(10, Background, VInt 1); (20, Background, VInt 2);
                  (30, Background, VInt 3); (40, Background, VInt 4)])
    by (repeat constructor).
  exact (proj2 (RateLimit_window 2 1000 world0 _ H1 H2)).
Defined.

(** *** RateLimit: capacity zero or less *)

Lemma RateLimit_func_closed b bk ctx input w :
  buckets w !! b = Some bk ->
  tokens bk <= 0 -> capacity bk <= 0 ->
  exists bk',
    RateLimit_func b ctx input w = (limiter_reject ctx, with_bucket b bk' w)
    /\ tokens bk' <= 0 /\ capacity bk' <= 0.
Proof.
  intros Hb Htok Hcap. unfold RateLimit_func. rewrite Hb. cbv zeta.
  destruct (decide (refillRate bk <= _));
    cbn [tokens capacity refillRate lastRefill].
  - rewrite decide_True by lia. eexists. split; [reflexivity|]. simpl; lia.
  - rewrite decide_True by lia. eexists. split; [reflexivity|]. lia.
Qed.

Lemma invoke_seq_closed b calls :
  forall w bk,
    buckets w !! b = Some bk ->
    tokens bk <= 0 -> capacity bk <= 0 ->
    (invoke_seq (RateLimit_func b) calls w).1
    = map (fun c => limiter_reject c.1.2) calls.
Proof.
  induction calls as [|[[t ctx] x] rest IH]; intros w bk Hb Htok Hcap.
  - reflexivity.
  - cbn [invoke_seq].
    destruct (RateLimit_func_closed b bk ctx x (set_clock t w) Hb Htok Hcap)
      as (bk' & -> & Htok' & Hcap').
    specialize (IH _ bk' (with_bucket_lookup b bk' (set_clock t w)) Htok' Hcap').
    destruct (invoke_seq (RateLimit_func b) rest _) as [rs w2].
    cbn [fst] in *. now rewrite IH.
Qed.

(** X19: a limiter built with a capacity of zero or less lets nothing
    through: every call, made at any time, is rejected with "rate limit
    exceeded", a nil output and the context it was given; the refill, which
    resets the count to that capacity, never helps. *)
Theorem RateLimit_nonpositive_capacity (C D : Z) (w0 : World)
    (calls : list (Z * Context * Value)) :
  C <= 0 ->
  (invoke_seq (RateLimit C D w0).1.2 calls (RateLimit C D w0).2).1
  = map (fun c => limiter_reject c.1.2) calls.
Proof.
  intros HC. rewrite RateLimit_eval. cbn [fst snd].
  apply (invoke_seq_closed _ calls _
           {| tokens := C; capacity := C; refillRate := D;
              lastRefill := clock w0 |}); [apply with_bucket_lookup | | ];
    simpl; lia.
Qed.

Lemma RateLimit_nonpositive_capacity_witness :
  (invoke_seq (RateLimit 0 1000 world0).1.2
     [(10, Background, VInt 1); (5000, Background, VInt 2)]
     (RateLimit 0 1000 world0).2).1
  = [limiter_reject Background; limiter_reject Background].
Proof.
  apply (RateLimit_nonpositive_capacity 0 1000 world0
           [(10, Background, VInt 1); (5000, Background, VInt 2)]).
  lia.
Defined.

(** X20: a limiter touches its own bucket and nothing else.  A call of the
    closure over bucket [b] leaves every other bucket, the log, the cells,
    the random stream and the clock as they were; building a limiter adds
    one bucket at an address not in use and changes nothing else, so that a
    second limiter never shares the bucket of the first. *)
Theorem RateLimit_isolated (b : nat) (ctx : Context) (input : Value)
    (w : World) (C D C' D' : Z) :
  (delete b (buckets (RateLimit_func b ctx input w).2) = delete b (buckets w)
   /\ logs (RateLimit_func b ctx input w).2 = logs w
   /\ cells (RateLimit_func b ctx input w).2 = cells w
   /\ entropy_pos (RateLimit_func b ctx input w).2 = entropy_pos w
   /\ clock (RateLimit_func b ctx input w).2 = clock w)
  /\ (buckets w !! (RateLimit C D w).1.1 = None
      /\ delete (RateLimit C D w).1.1 (buckets (RateLimit C D w).2) = buckets w
      /\ logs (RateLimit C D w).2 = logs w
      /\ cells (RateLimit C D w).2 = cells w)
  /\ (RateLimit C' D' (RateLimit C D w).2).1.1 <> (RateLimit C D w).1.1
  /\ buckets (RateLimit C' D' (RateLimit C D w).2).2 !! (RateLimit C D w).1.1
     = Some {| tokens := C; capacity := C; refillRate := D;
               lastRefill := clock w |}.
Proof.
  split; [|split; [|split]].
  - unfold RateLimit_func.
    destruct (buckets w !! b) as [bk|]; [|repeat split]. cbv zeta.
    destruct (decide (refillRate bk <= _));
      cbn [tokens capacity refillRate lastRefill];
      destruct (decide (_ <= 0)); cbn [snd]; unfold with_bucket; simpl;
      rewrite delete_insert_eq; repeat split.
  - rewrite RateLimit_eval. cbn [fst snd]. unfold with_bucket; simpl.
    assert (Hfresh : buckets w !! fresh (dom (buckets w)) = None)
      by apply not_elem_of_dom, is_fresh.
    split; [exact Hfresh|]. split; [|split; reflexivity].
    now rewrite delete_insert_eq, delete_id.
  - rewrite !RateLimit_eval. cbn [fst snd]. unfold with_bucket; simpl.
    intros Heq.
    pose proof (is_fresh (dom (<[fresh (dom (buckets w)) :=
                                   {| tokens := C; capacity := C;
                                      refillRate := D;
                                      lastRefill := clock w |}]> (buckets w))))
      as Hnew.
    rewrite Heq in Hnew. apply Hnew.
    apply elem_of_dom. rewrite lookup_insert_eq. eauto.
  - rewrite !RateLimit_eval. cbn [fst snd]. unfold with_bucket; simpl.
    rewrite lookup_insert_ne; [apply lookup_insert_eq|].
    intros Heq.
    pose proof (is_fresh (dom (<[fresh (dom (buckets w)) :=
                                   {| tokens := C; capacity := C;
                                      refillRate := D;
                                      lastRefill := clock w |}]> (buckets w))))
      as Hnew.
    rewrite Heq in Hnew. apply Hnew.
    apply elem_of_dom. rewrite lookup_insert_eq. eauto.
Qed.
